(** * Debt simplification ([transaction.py]): model and verification

    A shallow embedding of the four functions of [transaction.py]
    ([update_adjacency_graph], [transaction_adjacency_graph],
    [people_and_total_debt], [simplify_transactions]) and the properties
    of the aggregation and of the greedy matching.

    Modelling choices.
    - Amounts.  The code does not fix their type.  The model of the first
      part, on which the theorems are proved, has exact rationals ([Qc],
      canonical fractions with Leibniz equality): it is the code on
      Python's [int] and [Fraction].  The same code with the arithmetic as a
      parameter is [Generic]; at the rationals it is the first model, and at
      binary64 ([Float64], the kernel's primitive floats) it is the code on
      Python's [float], where the results that rest on exact arithmetic
      fail by rounding.
    - A Python [dict] is insertion ordered: it is an association list in
      which a new key is appended and an existing key keeps its place.
    - Exceptions ([KeyError], [IndexError], [AssertionError]) are explicit
      results.
    - The iteration order of the Python [set] of people is not fixed by the
      language: it is an argument of [transaction_adjacency_graph]. *)

From Stdlib Require Import QArith Qcanon.
From Stdlib Require PrimFloat.
From stdpp Require Import base option strings numbers list.

Local Open Scope Qc_scope.

(** ** Numbers *)

Definition person := string.

(** The amounts of the exact model: Python's [int] and [Fraction], on which
    [+], [-] and [sum] do not round.  For [float] see [Float64] below. *)
Abbreviation number := Qc.

(** Integer and fractional literals of the source. *)
Definition num (z : Z) : number := Q2Qc (inject_Z z).
Definition frac (z : Z) (d : positive) : number := Q2Qc (z # d).

(** Python's [sum]: a left fold from [0]. *)
Definition sum (l : list number) : number := foldl Qcplus 0 l.

(** ** Exceptions *)

Inductive exception := KeyError | IndexError | AssertionError.

Inductive outcome (A : Type) :=
  | Ok (a : A)
  | Raise (e : exception).
Arguments Ok {A} a.
Arguments Raise {A} e.

#[global] Instance outcome_ret : MRet outcome := @Ok.
#[global] Instance outcome_bind : MBind outcome := λ A B f m,
  match m with Ok a => f a | Raise e => Raise e end.

(** ** Insertion-ordered dictionaries *)

Definition dict (V : Type) := list (person * V).

Section dict_ops.
Context {V : Type}.

(** [d.get(k)] *)
Fixpoint dict_get (k : person) (d : dict V) : option V :=
  match d with
  | [] => None
  | (k', v) :: d' => if decide (k = k') then Some v else dict_get k d'
  end.

(** [d[k] = v]: an existing key keeps its position, a new key goes last. *)
Fixpoint dict_set (k : person) (v : V) (d : dict V) : dict V :=
  match d with
  | [] => [(k, v)]
  | (k', v') :: d' =>
      if decide (k = k') then (k, v) :: d' else (k', v') :: dict_set k v d'
  end.

(** [k in d.keys()] *)
Definition dict_mem (k : person) (d : dict V) : bool :=
  match dict_get k d with Some _ => true | None => false end.

Definition dict_keys (d : dict V) : list person := d.*1.
Definition dict_values (d : dict V) : list V := d.*2.

(** [d[k]] *)
Definition getitem (d : dict V) (k : person) : outcome V :=
  match dict_get k d with Some v => Ok v | None => Raise KeyError end.

(** [{k: v for (k, v) in kvs}] *)
Definition dict_of_list (kvs : list (person * V)) : dict V :=
  foldl (λ d kv, dict_set kv.1 kv.2 d) [] kvs.
End dict_ops.

(** Python's [==] on dictionaries: same keys, related values; the order of
    insertion is not compared. *)
Definition dict_equiv {V} (R : V → V → Prop) (d d' : dict V) : Prop :=
  ∀ k, option_Forall2 R (dict_get k d) (dict_get k d').

Definition dict_equivb {V} (Rb : V → V → bool) (d d' : dict V) : bool :=
  forallb (λ k, match dict_get k d, dict_get k d' with
                | Some v, Some v' => Rb v v'
                | None, None => true
                | _, _ => false
                end) (dict_keys d ++ dict_keys d').

(** ** The adjacency graph *)

Definition graph := dict (dict number).

(** [graph[a][b]] when both keys are present. *)
Definition edge (g : graph) (a b : person) : option number :=
  dict_get a g ≫= dict_get b.

Definition graph_equiv : graph → graph → Prop := dict_equiv (dict_equiv eq).
Definition graph_equivb : graph → graph → bool :=
  dict_equivb (dict_equivb (λ x y : number, bool_decide (x = y))).

(** [if k not in adjacency_graph.keys(): adjacency_graph[k] = {}] *)
Definition ensure_key (k : person) (g : graph) : graph :=
  if dict_mem k g then g else dict_set k [] g.

(** [update_adjacency_graph(adjacency_graph, debtor, pay_to, amount)]; the
    mutated graph is the result.  Each inner dictionary is read again from
    the graph where the source reads it again, so that the two writes hit
    the same inner dictionary when [debtor] and [pay_to] are the same key. *)
Definition update_adjacency_graph (adjacency_graph : graph)
    (debtor pay_to : person) (amount : number) : outcome graph :=
  let g := ensure_key pay_to (ensure_key debtor adjacency_graph) in
  row_d ← getitem g debtor;
  if dict_mem pay_to row_d then
    row_p ← getitem g pay_to;
    if dict_mem debtor row_p then
      old ← getitem row_d pay_to;
      let g := dict_set debtor (dict_set pay_to (old + amount) row_d) g in
      row_p ← getitem g pay_to;
      old ← getitem row_p debtor;
      mret (dict_set pay_to (dict_set debtor (old - amount) row_p) g)
    else Raise AssertionError
  else
    let g := dict_set debtor (dict_set pay_to amount row_d) g in
    row_p ← getitem g pay_to;
    mret (dict_set pay_to (dict_set debtor (- amount) row_p) g).

(** ** Transactions and the graph builder *)

Record transaction := Transaction {
  debtor : person;
  pay_to : person;
  amount : number
}.

(** The elements of the set
    [{t["debtor"] for t in ts} | {t["pay_to"] for t in ts}]. *)
Definition all_people (pairwise_transactions : list transaction)
    : list person :=
  (debtor <$> pairwise_transactions) ++ (pay_to <$> pairwise_transactions).

(** [order] is a possible iteration order of the set with elements [s]. *)
Definition set_iteration_order (s order : list person) : Prop :=
  NoDup order ∧ ∀ x, x ∈ order ↔ x ∈ s.

(** One iteration order (first occurrences), used to run the model. *)
Definition first_seen_order (s : list person) : list person :=
  reverse (remove_dups (reverse s)).

(** The loop [for transaction in pairwise_transactions: update(...)]. *)
Fixpoint fill_graph (adjacency_graph : graph)
    (pairwise_transactions : list transaction) : outcome graph :=
  match pairwise_transactions with
  | [] => Ok adjacency_graph
  | t :: ts =>
      g ← update_adjacency_graph adjacency_graph
            (debtor t) (pay_to t) (amount t);
      fill_graph g ts
  end.

(** [{k: {} for k in all_people}], the set being iterated in [order]. *)
Definition initial_graph (order : list person) : graph :=
  dict_of_list ((λ k, (k, [])) <$> order).

(** [transaction_adjacency_graph(pairwise_transactions)], where [order] is
    the order in which the set [all_people] is iterated. *)
Definition transaction_adjacency_graph (order : list person)
    (pairwise_transactions : list transaction) : outcome graph :=
  fill_graph (initial_graph order) pairwise_transactions.

(** ** Net balances *)

(** [people_and_total_debt(adjacency_graph)]: the keys, and the dictionary
    [{k: sum(adjacency_graph[k].values()) for k in people}]. *)
Definition people_and_total_debt (adjacency_graph : graph)
    : outcome (list person * dict number) :=
  let people := dict_keys adjacency_graph in
  totals ← mapM (λ k, row ← getitem adjacency_graph k;
                      mret (k, sum (dict_values row))) people;
  mret (people, dict_of_list totals).

(** ** The greedy simplifier *)

(** [[elt(x) for x in l if cond(x)]], with the condition evaluated before the
    element, one [x] at a time. *)
Fixpoint comprehension {A B} (elt : A → outcome B) (cond : A → outcome bool)
    (l : list A) : outcome (list B) :=
  match l with
  | [] => Ok []
  | x :: l =>
      c ← cond x;
      if c : bool then
        y ← elt x; ys ← comprehension elt cond l; mret (y :: ys)
      else comprehension elt cond l
  end.

(** [l[i]] for an index [i >= 0]. *)
Definition index {A} (l : list A) (i : nat) : outcome A :=
  match l !! i with Some x => Ok x | None => Raise IndexError end.

(** The variables of the [while] loop.  An entry [[name, remaining]] of
    [givers] or [receivers] is a pair. *)
Record loop_state := LoopState {
  givers : list (person * number);
  receivers : list (person * number);
  current_giver : nat;
  current_receiver : nat;
  simplified_debt_hash : graph
}.

(** The state before the loop is entered. *)
Definition initial_state (adjacency_graph : graph) : outcome loop_state :=
  '(people, people_to_total_debt) ← people_and_total_debt adjacency_graph;
  receivers ← comprehension
    (λ p, t ← getitem people_to_total_debt p; mret (p, - t))
    (λ p, t ← getitem people_to_total_debt p; mret (bool_decide (t < 0)))
    people;
  givers ← comprehension
    (λ p, t ← getitem people_to_total_debt p; mret (p, t))
    (λ p, t ← getitem people_to_total_debt p; mret (bool_decide (0 < t)))
    people;
  mret (LoopState givers receivers 0 0 []).

(** One iteration of the loop. *)
Definition loop_body (s : loop_state) : outcome loop_state :=
  g ← index (givers s) (current_giver s);
  r ← index (receivers s) (current_receiver s);
  if bool_decide (g.2 < r.2) then
    let give_amount := g.2 in
    let give_name := g.1 in
    let receive_name := r.1 in
    let givers' := <[current_giver s := (g.1, g.2 - give_amount)]> (givers s) in
    let receivers' :=
      <[current_receiver s := (r.1, r.2 - give_amount)]> (receivers s) in
    h ← update_adjacency_graph (simplified_debt_hash s)
          give_name receive_name give_amount;
    mret (LoopState givers' receivers'
            (S (current_giver s)) (current_receiver s) h)
  else
    let give_amount := r.2 in
    let give_name := g.1 in
    let receive_name := r.1 in
    let givers' := <[current_giver s := (g.1, g.2 - give_amount)]> (givers s) in
    let receivers' :=
      <[current_receiver s := (r.1, r.2 - give_amount)]> (receivers s) in
    h ← update_adjacency_graph (simplified_debt_hash s)
          give_name receive_name give_amount;
    mret (LoopState givers' receivers'
            (current_giver s) (S (current_receiver s)) h).

(** [while current_receiver < len(receivers): ...], run for at most [fuel]
    iterations; [None] when the fuel does not suffice. *)
Fixpoint while_loop (fuel : nat) (s : loop_state)
    : option (outcome loop_state) :=
  if decide (current_receiver s < length (receivers s))%nat then
    match fuel with
    | O => None
    | S fuel =>
        match loop_body s with
        | Ok s' => while_loop fuel s'
        | Raise e => Some (Raise e)
        end
    end
  else Some (Ok s).

(** Iterations granted to the loop: every iteration advances one cursor. *)
Definition loop_fuel (s : loop_state) : nat :=
  length (givers s) + length (receivers s).

(** [simplify_transactions(adjacency_graph)] *)
Definition simplify_transactions (adjacency_graph : graph)
    : option (outcome graph) :=
  match initial_state adjacency_graph with
  | Raise e => Some (Raise e)
  | Ok s0 =>
      match while_loop (loop_fuel s0) s0 with
      | None => None
      | Some (Raise e) => Some (Raise e)
      | Some (Ok s) => Some (Ok (simplified_debt_hash s))
      end
  end.

(** ** The inputs of the test suite *)

Definition standard_transactions : list transaction :=
  [ Transaction "Kevin" "Xander" (num 800);
    Transaction "John" "Xander" (num 750);
    Transaction "William" "Xander" (num 800);
    Transaction "Xander" "Kevin" (num 30);
    Transaction "Kevin" "Xander" (num 20);
    Transaction "John" "William" (num 100);
    Transaction "William" "Kevin" (num 40);
    Transaction "Xander" "John" (num 20);
    Transaction "Kevin" "William" (frac 25 2) ].

Definition dup_pair_transactions : list transaction :=
  [ Transaction "Kevin" "Xander" (num 50);
    Transaction "Kevin" "Xander" (num 30);
    Transaction "Xander" "Kevin" (num 20);
    Transaction "Xander" "Kevin" (num 75);
    Transaction "John" "Kevin" (num 10);
    Transaction "John" "Kevin" (num 14);
    Transaction "Kevin" "John" (num 29);
    Transaction "Kevin" "John" (num 7) ].

(** ** Specification vocabulary *)

(** The row [graph[k]], empty when [k] is not a key. *)
Definition row (g : graph) (k : person) : dict number :=
  default [] (dict_get k g).

(** [sum(graph[k].values())], [0] when [k] is not a key. *)
Definition flow (g : graph) (k : person) : number :=
  sum (dict_values (row g k)).

(** The sum of a dictionary's values under a weight. *)
Definition dict_sum {V} (w : V → number) (d : dict V) : number :=
  sum (w <$> dict_values d).

(** The sum of all the rows' sums. *)
Definition grand_total (g : graph) : number :=
  dict_sum (λ r, sum (dict_values r)) g.

(** Every edge is present in both directions. *)
Definition mutually_present (g : graph) : Prop :=
  ∀ a b, is_Some (edge g a b) ↔ is_Some (edge g b a).

(** [graph[a][b] == -graph[b][a]] for every edge. *)
Definition antisymmetric (g : graph) : Prop :=
  ∀ a b v, edge g a b = Some v → edge g b a = Some (- v).

(** Every transaction has two distinct endpoints. *)
Definition distinct_endpoints (ts : list transaction) : Prop :=
  Forall (λ t, debtor t ≠ pay_to t) ts.

(** The graph left by [update_adjacency_graph] when the endpoints differ
    and the edge is present in both directions or in none. *)
Definition updated (g : graph) (d p : person) (a : number) : graph :=
  dict_set p (dict_set d (default 0 (dict_get d (row g p)) - a) (row g p))
    (dict_set d (dict_set p (default 0 (dict_get p (row g d)) + a) (row g d))
       (ensure_key p (ensure_key d g))).

(** The effect of one transaction on the entry [graph[x][y]]. *)
Definition edge_step (t : transaction) (x y : person)
    (e : option number) : option number :=
  if decide (x = debtor t ∧ y = pay_to t) then Some (default 0 e + amount t)
  else if decide (x = pay_to t ∧ y = debtor t) then Some (default 0 e - amount t)
  else e.

(** The dictionary of net totals, row by row. *)
Definition totals_of (g : graph) : dict number :=
  (λ kv, (kv.1, sum (dict_values kv.2))) <$> g.

(** The lists [givers] and [receivers] built before the loop. *)
Definition givers_of (g : graph) : list (person * number) :=
  (λ p, (p, flow g p)) <$> filter (λ p, 0 < flow g p) (dict_keys g).

Definition receivers_of (g : graph) : list (person * number) :=
  (λ p, (p, - flow g p)) <$> filter (λ p, flow g p < 0) (dict_keys g).

(** The states the loop goes through from [s0]. *)
Inductive loop_reaches (s0 : loop_state) : loop_state → Prop :=
  | reaches_start : loop_reaches s0 s0
  | reaches_step s s' :
      loop_reaches s0 s →
      (current_receiver s < length (receivers s))%nat →
      loop_body s = Ok s' →
      loop_reaches s0 s'.

(** The loop invariant, relative to the initial lists [G] of givers and [R]
    of receivers: what a person has been assigned so far plus what remains
    is the initial amount; the entries before a cursor are settled; the
    receivers from the cursor on still wait for money; the remaining
    amounts of both sides add up to the same sum. *)
Record loop_inv (G R : list (person * number)) (s : loop_state) : Prop := {
  inv_givers_length : length (givers s) = length G;
  inv_receivers_length : length (receivers s) = length R;
  inv_givers : ∀ i e e0,
    givers s !! i = Some e → G !! i = Some e0 →
    e.1 = e0.1 ∧ flow (simplified_debt_hash s) e.1 + e.2 = e0.2 ∧ 0 ≤ e.2
    ∧ ((i < current_giver s)%nat → e.2 = 0);
  inv_receivers : ∀ j e e0,
    receivers s !! j = Some e → R !! j = Some e0 →
    e.1 = e0.1 ∧ e.2 - flow (simplified_debt_hash s) e.1 = e0.2
    ∧ ((j < current_receiver s)%nat → e.2 = 0)
    ∧ ((current_receiver s ≤ j)%nat → 0 < e.2);
  inv_sum : sum (givers s).*2 = sum (receivers s).*2;
  inv_mutual : mutually_present (simplified_debt_hash s);
  inv_keys : ∀ k,
    k ∈ dict_keys (simplified_debt_hash s) → k ∈ G.*1 ∨ k ∈ R.*1
}.

(** The expected results of the test suite, as the source writes them. *)
Definition standard_actual_total : dict number :=
  [ ("Kevin", num 800 - num 30 + num 20 - num 40 + frac 25 2);
    ("Xander", - num 800 - num 750 - num 800 + num 30 - num 20 + num 20);
    ("John", num 750 + num 100 - num 20);
    ("William", num 800 - num 100 + num 40 - frac 25 2) ].

Definition single_actual_simplified : graph :=
  [ ("Kevin", [("Xander", frac 1525 2)]);
    ("William", [("Xander", frac 1455 2)]);
    ("John", [("Xander", num 830)]);
    ("Xander", [("Kevin", - frac 1525 2); ("William", - frac 1455 2);
                ("John", - num 830)]) ].

(** The net totals of the standard transactions, as plain fractions. *)
Definition standard_net_totals : dict number :=
  [ ("Kevin", frac 1525 2); ("Xander", num (-2320));
    ("John", num 830); ("William", frac 1455 2) ].

(** The whole pipeline on the standard transactions agrees with the
    expected totals and the expected plan, for one iteration order. *)
Definition standard_pipeline_ok (order : list person) : bool :=
  match transaction_adjacency_graph order standard_transactions with
  | Ok g =>
      match people_and_total_debt g, simplify_transactions g with
      | Ok (_, totals), Some (Ok h) =>
          dict_equivb (λ x y : number, bool_decide (x = y))
            totals standard_net_totals
          && graph_equivb h single_actual_simplified
      | _, _ => false
      end
  | Raise _ => false
  end.

(** Two debts of the same amount between two disjoint pairs. *)
Definition tie_transactions : list transaction :=
  [ Transaction "A" "C" (num 10); Transaction "B" "D" (num 10) ].

(** The plan for [tie_transactions] has an entry of amount zero from a net
    debtor to a net creditor, for one iteration order. *)
Definition has_zero_payment (order : list person) : bool :=
  match transaction_adjacency_graph order tie_transactions with
  | Ok g =>
      match simplify_transactions g with
      | Some (Ok h) =>
          existsb (λ x, existsb (λ y,
            bool_decide (0 < flow g x) && bool_decide (flow g y < 0)
            && bool_decide (edge h x y = Some 0)) (dict_keys g)) (dict_keys g)
      | _ => false
      end
  | Raise _ => false
  end.

(** What [x] owes [y] in total according to the transactions. *)
Definition owes (ts : list transaction) (x y : person) : number :=
  sum (amount <$> filter (λ t, debtor t = x ∧ pay_to t = y) ts).

(** All that [x] owes, and all that is owed to [x]. *)
Definition debts_of (ts : list transaction) (x : person) : number :=
  sum (amount <$> filter (λ t, debtor t = x) ts).

Definition credits_of (ts : list transaction) (x : person) : number :=
  sum (amount <$> filter (λ t, pay_to t = x) ts).

(** The transaction is between [x] and [y], in one direction or the other. *)
Definition links (t : transaction) (x y : person) : Prop :=
  (debtor t = x ∧ pay_to t = y) ∨ (debtor t = y ∧ pay_to t = x).

#[global] Instance links_dec t x y : Decision (links t x y).
Proof. unfold links. apply _. Defined.

(** Every entry of the plan [h] goes from a giver to a receiver with a
    non-negative amount, or back with a non-positive one, and the two
    entries of a pair are opposite. *)
Definition payments_directed (G R : list (person * number)) (h : graph)
    : Prop :=
  antisymmetric h
  ∧ ∀ x y v, edge h x y = Some v →
      (x ∈ G.*1 ∧ y ∈ R.*1 ∧ 0 ≤ v) ∨ (x ∈ R.*1 ∧ y ∈ G.*1 ∧ v ≤ 0).

(** ** The comparison of the test suite *)

#[local] Set Warnings "-register-all".

(** A value handed to [assertHashesAlmostEqual]: a number (a leaf) or a
    dictionary of such values. *)
Inductive hash :=
  | Leaf (x : number)
  | Node (d : list (person * hash)).

(** What a test assertion does: it returns, or it raises. *)
Inductive test_error := TestAssertionError | TestTypeError | TestKeyError.

Inductive verdict :=
  | Passes
  | Raises (e : test_error).

(** [keys_a == keys_b] on two key views: the same keys, in any order. *)
Definition keys_equal (keys_a keys_b : list person) : bool :=
  forallb (λ k, bool_decide (k ∈ keys_b)) keys_a
  && forallb (λ k, bool_decide (k ∈ keys_a)) keys_b.

Section hash_test_case.
(** [unittest]'s [assertAlmostEqual(first, second, places, delta)] is a
    library method: it is a parameter of the model. *)
Variable assertAlmostEqual :
  number → number → option Z → option number → verdict.

(** [assertHashesAlmostEqual(hash_a, hash_b, places, msg, delta)]; [msg]
    only words the failure and is left out.  The loop
    [for key in keys_a] reads [hash_a[key]], the value stored with [key]:
    the model walks through the items of [hash_a].  The recursive call
    passes neither [places] nor [delta]. *)
Fixpoint assertHashesAlmostEqual (hash_a hash_b : hash)
    (places : option Z) (delta : option number) : verdict :=
  match hash_a with
  | Node items_a =>
      match hash_b with
      | Node items_b =>
          if keys_equal (dict_keys items_a) (dict_keys items_b) then
            (fix each (items : list (person * hash)) : verdict :=
               match items with
               | [] => Passes
               | (key, value_a) :: items =>
                   match dict_get key items_b with
                   | None => Raises TestKeyError
                   | Some value_b =>
                       match assertHashesAlmostEqual value_a value_b
                               None None with
                       | Passes => each items
                       | Raises e => Raises e
                       end
                   end
               end) items_a
          else Raises TestAssertionError
      | Leaf _ => Raises TestAssertionError
      end
  | Leaf val_a =>
      match hash_b with
      | Node _ => Raises TestAssertionError
      | Leaf val_b => assertAlmostEqual val_a val_b places delta
      end
  end.
End hash_test_case.

(** The loop of [assertHashesAlmostEqual] over the items of [hash_a], for
    a comparison [cmp] of two values. *)
Fixpoint each_item (cmp : hash → hash → verdict)
    (items_b items : list (person * hash)) : verdict :=
  match items with
  | [] => Passes
  | (key, value_a) :: items =>
      match dict_get key items_b with
      | None => Raises TestKeyError
      | Some value_b =>
          match cmp value_a value_b with
          | Passes => each_item cmp items_b items
          | Raises e => Raises e
          end
      end
  end.

(** The two values have the same tree structure: numbers at the same
    places, and dictionaries with the same keys at the same places. *)
Inductive same_shape : hash → hash → Prop :=
  | same_shape_leaf x y : same_shape (Leaf x) (Leaf y)
  | same_shape_node items_a items_b :
      (∀ k, k ∈ dict_keys items_a ↔ k ∈ dict_keys items_b) →
      (∀ k va, (k, va) ∈ items_a →
         ∃ vb, dict_get k items_b = Some vb ∧ same_shape va vb) →
      same_shape (Node items_a) (Node items_b).

(** The keys of every dictionary inside the value are distinct. *)
Inductive hash_wf : hash → Prop :=
  | hash_wf_leaf x : hash_wf (Leaf x)
  | hash_wf_node items :
      NoDup (dict_keys items) →
      Forall (λ kv, hash_wf kv.2) items →
      hash_wf (Node items).


(** ** The code with the arithmetic as a parameter *)

(** The source does not fix the type of the amounts.  The same statements
    run on Python's [int] and [Fraction], whose arithmetic is exact, and on
    [float], whose arithmetic rounds.  [Generic] is the code of the four
    functions once more, statement for statement as above, with the number
    type [N] and the operations the code applies to amounts as parameters:
    [zero] (the [0] of [sum] and of the two comparisons), [add] ([+=] and
    the additions of [sum]), [sub] ([-=]), [opp] (unary [-]) and [lt]
    ([<]; [x > 0] is [lt zero x]).  Dictionaries, exceptions, list
    comprehensions and indexing do not depend on the numbers and are the
    ones above. *)

Module Generic.
Section code.
Variable N : Type.
Variable zero : N.
Variables add sub : N → N → N.
Variable opp : N → N.
Variable lt : N → N → bool.

(** Python's [sum]: a left fold from [0]. *)
Definition sum (l : list N) : N := foldl add zero l.

Definition graph := dict (dict N).

(** [graph[a][b]] when both keys are present. *)
Definition edge (g : graph) (a b : person) : option N :=
  dict_get a g ≫= dict_get b.

(** [if k not in adjacency_graph.keys(): adjacency_graph[k] = {}] *)
Definition ensure_key (k : person) (g : graph) : graph :=
  if dict_mem k g then g else dict_set k [] g.

(** [update_adjacency_graph(adjacency_graph, debtor, pay_to, amount)] *)
Definition update_adjacency_graph (adjacency_graph : graph)
    (debtor pay_to : person) (amount : N) : outcome graph :=
  let g := ensure_key pay_to (ensure_key debtor adjacency_graph) in
  row_d ← getitem g debtor;
  if dict_mem pay_to row_d then
    row_p ← getitem g pay_to;
    if dict_mem debtor row_p then
      old ← getitem row_d pay_to;
      let g := dict_set debtor (dict_set pay_to (add old amount) row_d) g in
      row_p ← getitem g pay_to;
      old ← getitem row_p debtor;
      mret (dict_set pay_to (dict_set debtor (sub old amount) row_p) g)
    else Raise AssertionError
  else
    let g := dict_set debtor (dict_set pay_to amount row_d) g in
    row_p ← getitem g pay_to;
    mret (dict_set pay_to (dict_set debtor (opp amount) row_p) g).

Record transaction := Transaction {
  debtor : person;
  pay_to : person;
  amount : N
}.

(** The elements of the set
    [{t["debtor"] for t in ts} | {t["pay_to"] for t in ts}]. *)
Definition all_people (pairwise_transactions : list transaction)
    : list person :=
  (debtor <$> pairwise_transactions) ++ (pay_to <$> pairwise_transactions).

(** The loop [for transaction in pairwise_transactions: update(...)]. *)
Fixpoint fill_graph (adjacency_graph : graph)
    (pairwise_transactions : list transaction) : outcome graph :=
  match pairwise_transactions with
  | [] => Ok adjacency_graph
  | t :: ts =>
      g ← update_adjacency_graph adjacency_graph
            (debtor t) (pay_to t) (amount t);
      fill_graph g ts
  end.

(** [{k: {} for k in all_people}], the set being iterated in [order]. *)
Definition initial_graph (order : list person) : graph :=
  dict_of_list ((λ k, (k, [])) <$> order).

(** [transaction_adjacency_graph(pairwise_transactions)] *)
Definition transaction_adjacency_graph (order : list person)
    (pairwise_transactions : list transaction) : outcome graph :=
  fill_graph (initial_graph order) pairwise_transactions.

(** [people_and_total_debt(adjacency_graph)] *)
Definition people_and_total_debt (adjacency_graph : graph)
    : outcome (list person * dict N) :=
  let people := dict_keys adjacency_graph in
  totals ← mapM (λ k, row ← getitem adjacency_graph k;
                      mret (k, sum (dict_values row))) people;
  mret (people, dict_of_list totals).

(** The variables of the [while] loop. *)
Record loop_state := LoopState {
  givers : list (person * N);
  receivers : list (person * N);
  current_giver : nat;
  current_receiver : nat;
  simplified_debt_hash : graph
}.

(** The state before the loop is entered. *)
Definition initial_state (adjacency_graph : graph) : outcome loop_state :=
  '(people, people_to_total_debt) ← people_and_total_debt adjacency_graph;
  receivers ← comprehension
    (λ p, t ← getitem people_to_total_debt p; mret (p, opp t))
    (λ p, t ← getitem people_to_total_debt p; mret (lt t zero))
    people;
  givers ← comprehension
    (λ p, t ← getitem people_to_total_debt p; mret (p, t))
    (λ p, t ← getitem people_to_total_debt p; mret (lt zero t))
    people;
  mret (LoopState givers receivers 0 0 []).

(** One iteration of the loop. *)
Definition loop_body (s : loop_state) : outcome loop_state :=
  g ← index (givers s) (current_giver s);
  r ← index (receivers s) (current_receiver s);
  if lt g.2 r.2 then
    let give_amount := g.2 in
    let give_name := g.1 in
    let receive_name := r.1 in
    let givers' :=
      <[current_giver s := (g.1, sub g.2 give_amount)]> (givers s) in
    let receivers' :=
      <[current_receiver s := (r.1, sub r.2 give_amount)]> (receivers s) in
    h ← update_adjacency_graph (simplified_debt_hash s)
          give_name receive_name give_amount;
    mret (LoopState givers' receivers'
            (S (current_giver s)) (current_receiver s) h)
  else
    let give_amount := r.2 in
    let give_name := g.1 in
    let receive_name := r.1 in
    let givers' :=
      <[current_giver s := (g.1, sub g.2 give_amount)]> (givers s) in
    let receivers' :=
      <[current_receiver s := (r.1, sub r.2 give_amount)]> (receivers s) in
    h ← update_adjacency_graph (simplified_debt_hash s)
          give_name receive_name give_amount;
    mret (LoopState givers' receivers'
            (current_giver s) (S (current_receiver s)) h).

(** [while current_receiver < len(receivers): ...], run for at most [fuel]
    iterations; [None] when the fuel does not suffice. *)
Fixpoint while_loop (fuel : nat) (s : loop_state)
    : option (outcome loop_state) :=
  if decide (current_receiver s < length (receivers s))%nat then
    match fuel with
    | O => None
    | S fuel =>
        match loop_body s with
        | Ok s' => while_loop fuel s'
        | Raise e => Some (Raise e)
        end
    end
  else Some (Ok s).

(** Iterations granted to the loop: every iteration advances one cursor. *)
Definition loop_fuel (s : loop_state) : nat :=
  length (givers s) + length (receivers s).

(** [simplify_transactions(adjacency_graph)] *)
Definition simplify_transactions (adjacency_graph : graph)
    : option (outcome graph) :=
  match initial_state adjacency_graph with
  | Raise e => Some (Raise e)
  | Ok s0 =>
      match while_loop (loop_fuel s0) s0 with
      | None => None
      | Some (Raise e) => Some (Raise e)
      | Some (Ok s) => Some (Ok (simplified_debt_hash s))
      end
  end.
End code.

Arguments edge {N} _ _ _.
Arguments Transaction {N} _ _ _.
Arguments debtor {N} _.
Arguments pay_to {N} _.
Arguments amount {N} _.
Arguments all_people {N} _.
Arguments LoopState {N} _ _ _ _ _.
Arguments givers {N} _.
Arguments receivers {N} _.
Arguments current_giver {N} _.
Arguments current_receiver {N} _.
Arguments simplified_debt_hash {N} _.
Arguments loop_fuel {N} _.
End Generic.

(** *** Exact arithmetic *)

(** The model of the first part is [Generic] at the rationals: a
    transaction and a loop state carry over field by field, and [<] is the
    decision of [Qclt]. *)
Definition Qcltb (x y : number) : bool := bool_decide (x < y).

Definition exact_transaction (t : transaction) : Generic.transaction number :=
  Generic.Transaction (debtor t) (pay_to t) (amount t).

Definition exact_state (s : loop_state) : Generic.loop_state number :=
  Generic.LoopState (givers s) (receivers s) (current_giver s)
    (current_receiver s) (simplified_debt_hash s).

(** *** Binary64 arithmetic *)

(** [Float64] is [Generic] at Python's [float]: IEEE 754 binary64 with
    round to nearest, ties to even, which is the arithmetic of the kernel's
    primitive floats.  [sum] adds from left to right, starting from [0]
    (the builtin of CPython up to version 3.11; later versions compensate
    the rounding errors of the additions).  A decimal literal stands for
    the nearest binary64 value, in Python as here. *)
Module Float64.
Import PrimFloat.
#[local] Set Warnings "-inexact-float".

Definition zero : float := 0%float.

Definition graph := Generic.graph float.
Definition transaction := Generic.transaction float.

Definition sum : list float → float := Generic.sum float zero add.

Definition update_adjacency_graph
    : graph → person → person → float → outcome graph :=
  Generic.update_adjacency_graph float add sub opp.

Definition transaction_adjacency_graph
    : list person → list transaction → outcome graph :=
  Generic.transaction_adjacency_graph float add sub opp.

Definition people_and_total_debt
    : graph → outcome (list person * dict float) :=
  Generic.people_and_total_debt float zero add.

Definition simplify_transactions : graph → option (outcome graph) :=
  Generic.simplify_transactions float zero add sub opp ltb.

(** Python's [x == y] and [x != y] on two floats. *)
Definition equal (x y : float) : bool := eqb x y.
Definition differ (x y : float) : bool := negb (eqb x y).

(** What the docstrings and the specification ask of the input: a positive
    amount, and a debtor who is not the payee. *)
Definition valid (ts : list transaction) : Prop :=
  Forall (λ t, Generic.debtor t ≠ Generic.pay_to t
               ∧ ltb zero (Generic.amount t) = true) ts.

(** [A owes B 0.1, A owes C 0.7, B owes C 0.3] *)
Definition three_debts : list transaction :=
  [ Generic.Transaction "A" "B" 0.1%float;
    Generic.Transaction "A" "C" 0.7%float;
    Generic.Transaction "B" "C" 0.3%float ].

(** [B owes A 0.1, C owes A 0.2] *)
Definition two_debtors : list transaction :=
  [ Generic.Transaction "B" "A" 0.1%float;
    Generic.Transaction "C" "A" 0.2%float ].

(** [A owes B 0.1, A owes B 0.2, A owes B 0.3] *)
Definition repeated_debt : list transaction :=
  [ Generic.Transaction "A" "B" 0.1%float;
    Generic.Transaction "A" "B" 0.2%float;
    Generic.Transaction "A" "B" 0.3%float ].

(** [sum(total.values()) != 0] on the graph of [three_debts]. *)
Definition totals_do_not_cancel (order : list person) : bool :=
  match transaction_adjacency_graph order three_debts with
  | Ok g =>
      match people_and_total_debt g with
      | Ok (_, totals) => differ (sum (dict_values totals)) zero
      | Raise _ => false
      end
  | Raise _ => false
  end.

(** The simplifier raises [IndexError] on the graph of [two_debtors]. *)
Definition leaves_givers (order : list person) : bool :=
  match transaction_adjacency_graph order two_debtors with
  | Ok g =>
      match simplify_transactions g with
      | Some (Raise IndexError) => true
      | _ => false
      end
  | Raise _ => false
  end.

(** [graph[A][B]] differs between [repeated_debt] and its reversal. *)
Definition order_of_debts_shows (order order' : list person) : bool :=
  match transaction_adjacency_graph order repeated_debt,
        transaction_adjacency_graph order' (reverse repeated_debt) with
  | Ok g, Ok g' =>
      match Generic.edge g "A" "B", Generic.edge g' "A" "B" with
      | Some x, Some y => differ x y
      | _, _ => false
      end
  | _, _ => false
  end.
End Float64.

(** * Properties *)

(** ** Arithmetic of sums *)

Lemma foldl_Qcplus (l : list number) (a : number) :
  foldl Qcplus a l = a + sum l.
Proof.
  unfold sum. revert a. induction l as [|x l IH]; intros a; simpl.
  - ring.
  - rewrite (IH (a + x)), (IH (0 + x)). ring.
Qed.

Lemma sum_nil : sum [] = 0.
Proof. reflexivity. Qed.

Lemma sum_cons (x : number) (l : list number) : sum (x :: l) = x + sum l.
Proof. unfold sum at 1. simpl. rewrite foldl_Qcplus. ring. Qed.

Lemma sum_app (l k : list number) : sum (l ++ k) = sum l + sum k.
Proof.
  induction l as [|x l IH]; simpl.
  - rewrite sum_nil. ring.
  - rewrite !sum_cons, IH. ring.
Qed.

Lemma sum_insert (l : list number) (i : nat) (x y : number) :
  l !! i = Some x → sum (<[i:=y]> l) = sum l - x + y.
Proof.
  revert i. induction l as [|z l IH]; intros [|i] Hi; simplify_eq/=.
  - rewrite !sum_cons. ring.
  - rewrite !sum_cons, (IH i Hi). ring.
Qed.

Lemma sum_zero (l : list number) : Forall (λ x, x = 0) l → sum l = 0.
Proof.
  induction 1 as [|x l -> _ IH]; [done|]. rewrite sum_cons, IH. ring.
Qed.

Lemma sum_nonneg (l : list number) : Forall (λ x, 0 ≤ x) l → 0 ≤ sum l.
Proof.
  induction 1 as [|x l Hx _ IH]; [done|].
  rewrite sum_cons. by apply Qcplus_nonneg_nonneg.
Qed.

Lemma sum_pos (l : list number) (i : nat) (x : number) :
  Forall (λ x, 0 ≤ x) l → l !! i = Some x → 0 < x → 0 < sum l.
Proof.
  intros Hl. revert i. induction Hl as [|z l Hz Hl IH]; intros [|i] Hi Hx;
    simplify_eq/=; rewrite sum_cons.
  - apply Qcplus_pos_nonneg; [done|]. by apply sum_nonneg.
  - apply Qcplus_nonneg_pos; [done|]. by apply (IH i).
Qed.

Lemma sum_nonneg_zero (l : list number) :
  Forall (λ x, 0 ≤ x) l → sum l = 0 → Forall (λ x, x = 0) l.
Proof.
  induction 1 as [|x l Hx Hl IH]; intros Hs; [done|].
  rewrite sum_cons in Hs.
  assert (0 ≤ sum l) as Hl' by by apply sum_nonneg.
  assert (x = 0) as ->.
  { apply (anti_symm Qcle); [|done].
    apply Qcle_ngt. intros Hpos.
    pose proof (Qcplus_pos_nonneg _ _ Hpos Hl') as H'.
    rewrite Hs in H'. by apply (irreflexivity Qclt) in H'. }
  constructor; [done|]. apply IH. by rewrite Qcplus_0_l in Hs.
Qed.

(** ** Dictionaries *)

Section dict_facts.
Context {V : Type}.
Implicit Types (d : dict V) (k : person) (v : V).

Lemma dict_get_set d k k' v :
  dict_get k (dict_set k' v d) = if decide (k = k') then Some v else dict_get k d.
Proof.
  induction d as [|[k0 v0] d IH]; simpl.
  - by repeat case_decide.
  - repeat (case_decide; simpl; simplify_eq); try done.
    all: rewrite IH; by repeat case_decide.
Qed.

Lemma dict_get_set_eq d k v : dict_get k (dict_set k v d) = Some v.
Proof. by rewrite dict_get_set, decide_True. Qed.

Lemma dict_get_set_ne d k k' v :
  k ≠ k' → dict_get k (dict_set k' v d) = dict_get k d.
Proof. intros. by rewrite dict_get_set, decide_False. Qed.

Lemma dict_mem_true d k : dict_mem k d = true ↔ is_Some (dict_get k d).
Proof.
  unfold dict_mem. destruct (dict_get k d); split; try done.
  all: by intros [? ?].
Qed.

Lemma dict_mem_false d k : dict_mem k d = false ↔ dict_get k d = None.
Proof. unfold dict_mem. by destruct (dict_get k d). Qed.

Lemma dict_get_keys d k : is_Some (dict_get k d) ↔ k ∈ dict_keys d.
Proof.
  unfold dict_keys. induction d as [|[k0 v0] d IH]; simpl.
  - split; [by intros [? ?]|by intros ?%elem_of_nil].
  - rewrite elem_of_cons. case_decide; simplify_eq.
    + split; eauto.
    + rewrite IH. split; [by right|by intros [?|?]].
Qed.

Lemma dict_get_None d k : dict_get k d = None ↔ k ∉ dict_keys d.
Proof. by rewrite <-dict_get_keys, eq_None_not_Some. Qed.

Lemma dict_keys_set d k k' v :
  k ∈ dict_keys (dict_set k' v d) ↔ k = k' ∨ k ∈ dict_keys d.
Proof.
  rewrite <-!dict_get_keys, dict_get_set.
  case_decide; simplify_eq; [split; eauto|].
  split; [by right|by intros [?|?]].
Qed.

(** A new key is appended. *)
Lemma dict_set_fresh d k v :
  dict_get k d = None → dict_set k v d = d ++ [(k, v)].
Proof.
  induction d as [|[k0 v0] d IH]; simpl; [done|].
  case_decide; [done|]. intros ?. by rewrite IH.
Qed.

(** An existing key keeps its position: the keys are unchanged. *)
Lemma dict_set_keys_present d k v :
  is_Some (dict_get k d) → dict_keys (dict_set k v d) = dict_keys d.
Proof.
  unfold dict_keys. induction d as [|[k0 v0] d IH]; simpl.
  - by intros [? ?].
  - case_decide; simplify_eq/=; [done|]. intros ?. by rewrite IH.
Qed.

Lemma dict_set_NoDup d k v :
  NoDup (dict_keys d) → NoDup (dict_keys (dict_set k v d)).
Proof.
  intros Hd. destruct (dict_get k d) as [v0|] eqn:Hk.
  - by rewrite dict_set_keys_present by eauto.
  - rewrite dict_set_fresh by done. unfold dict_keys in *.
    rewrite fmap_app. simpl. apply NoDup_app. split_and!; [done| |].
    + intros x Hx ->%list_elem_of_singleton.
      by apply dict_get_None in Hk.
    + apply NoDup_singleton.
Qed.

Lemma dict_get_NoDup d k v :
  NoDup (dict_keys d) → (k, v) ∈ d → dict_get k d = Some v.
Proof.
  unfold dict_keys. induction d as [|[k0 v0] d IH]; simpl.
  - by intros _ ?%elem_of_nil.
  - intros [Hk0 Hd]%NoDup_cons [?|Hin]%elem_of_cons; simplify_eq.
    + by rewrite decide_True.
    + rewrite decide_False; [by apply IH|].
      intros ->. apply Hk0. apply list_elem_of_fmap. by exists (k0, v).
Qed.

Lemma dict_sum_set (w : V → number) d k v :
  dict_sum w (dict_set k v d)
  = dict_sum w d - from_option w 0 (dict_get k d) + w v.
Proof.
  unfold dict_sum, dict_values.
  induction d as [|[k0 v0] d IH]; simpl.
  - rewrite sum_cons, sum_nil. ring.
  - case_decide; simplify_eq/=; rewrite !sum_cons; [ring|].
    rewrite IH. ring.
Qed.

(** A comprehension over distinct keys lists them in order. *)
Lemma dict_of_list_app (acc kvs : list (person * V)) :
  NoDup ((acc ++ kvs).*1) →
  foldl (λ d kv, dict_set kv.1 kv.2 d) acc kvs = acc ++ kvs.
Proof.
  revert acc. induction kvs as [|[k v] kvs IH]; intros acc Hnd; simpl.
  - by rewrite app_nil_r.
  - rewrite dict_set_fresh.
    + rewrite IH; rewrite <-(assoc_L (++)); [reflexivity|exact Hnd].
    + apply dict_get_None. unfold dict_keys.
      rewrite fmap_app in Hnd. apply NoDup_app in Hnd as (_ & Hnd & _).
      intros Hin. apply (Hnd k Hin). simpl. left.
Qed.

Lemma dict_of_list_NoDup (kvs : list (person * V)) :
  NoDup (kvs.*1) → dict_of_list kvs = kvs.
Proof. intros. by apply (dict_of_list_app []). Qed.

Lemma dict_of_list_keys_NoDup (kvs : list (person * V)) :
  NoDup (dict_keys (dict_of_list kvs)).
Proof.
  unfold dict_of_list.
  assert (NoDup (dict_keys (@nil (person * V)))) as Hnil by constructor.
  revert Hnil. generalize (@nil (person * V)).
  induction kvs as [|kv kvs IH]; intros acc Hacc; simpl; [done|].
  apply IH. by apply dict_set_NoDup.
Qed.
End dict_facts.

(** ** One balance update *)

Lemma edge_row (g : graph) (a b : person) : edge g a b = dict_get b (row g a).
Proof. unfold edge, row. by destruct (dict_get a g). Qed.

Lemma dict_get_ensure (g : graph) (k x : person) :
  dict_get x (ensure_key k g)
  = if decide (x = k) then Some (row g k) else dict_get x g.
Proof.
  unfold ensure_key, row, dict_mem.
  destruct (dict_get k g) as [r|] eqn:Hk.
  - case_decide; by simplify_eq.
  - rewrite dict_get_set. by case_decide.
Qed.

Lemma row_ensure (g : graph) (k x : person) : row (ensure_key k g) x = row g x.
Proof.
  unfold row at 1. rewrite dict_get_ensure. case_decide; by simplify_eq.
Qed.

Lemma keys_ensure (g : graph) (k x : person) :
  x ∈ dict_keys (ensure_key k g) ↔ x = k ∨ x ∈ dict_keys g.
Proof.
  rewrite <-!dict_get_keys, dict_get_ensure.
  case_decide; simplify_eq; [split; eauto|].
  split; [by right|by intros [?|?]].
Qed.

Lemma NoDup_ensure (g : graph) (k : person) :
  NoDup (dict_keys g) → NoDup (dict_keys (ensure_key k g)).
Proof. unfold ensure_key. destruct (dict_mem k g); auto using dict_set_NoDup. Qed.

Lemma grand_total_ensure (g : graph) (k : person) :
  grand_total (ensure_key k g) = grand_total g.
Proof.
  unfold ensure_key. destruct (dict_mem k g) eqn:Hk; [done|].
  apply dict_mem_false in Hk. unfold grand_total.
  rewrite dict_sum_set, Hk. simpl. rewrite sum_nil. ring.
Qed.

Lemma getitem_Some {V} (d : dict V) (k : person) (v : V) :
  dict_get k d = Some v → getitem d k = Ok v.
Proof. unfold getitem. by intros ->. Qed.

(** With both directions of an edge present or absent together, the
    assertion holds and the call returns [updated]. *)
Lemma update_adjacency_graph_updated (g : graph) (d p : person) (a : number) :
  mutually_present g → d ≠ p →
  update_adjacency_graph g d p a = Ok (updated g d p a).
Proof.
  intros Hm Hdp. unfold update_adjacency_graph, updated.
  set (g0 := ensure_key p (ensure_key d g)).
  assert (dict_get d g0 = Some (row g d)) as Hd.
  { unfold g0. rewrite dict_get_ensure, decide_False by done.
    by rewrite dict_get_ensure, decide_True. }
  assert (dict_get p g0 = Some (row g p)) as Hp.
  { unfold g0. by rewrite dict_get_ensure, decide_True, row_ensure. }
  rewrite (getitem_Some _ _ _ Hd). simpl.
  specialize (Hm d p). rewrite !edge_row in Hm.
  destruct (dict_mem p (row g d)) eqn:Hmem.
  - apply dict_mem_true in Hmem. pose proof (proj1 Hm Hmem) as Hmem'.
    rewrite (getitem_Some _ _ _ Hp). simpl.
    apply dict_mem_true in Hmem' as Hmem''. rewrite Hmem''.
    destruct Hmem as [v Hv], Hmem' as [v' Hv'].
    rewrite (getitem_Some _ _ _ Hv). simpl.
    rewrite (getitem_Some _ p (row g p))
      by (by rewrite dict_get_set_ne by done).
    simpl. rewrite (getitem_Some _ _ _ Hv'). simpl.
    by rewrite Hv, Hv'.
  - apply dict_mem_false in Hmem.
    assert (dict_get d (row g p) = None) as Hnone.
    { apply eq_None_not_Some. intros Hs. apply Hm in Hs.
      rewrite Hmem in Hs. by destruct Hs. }
    rewrite (getitem_Some _ p (row g p))
      by (by rewrite dict_get_set_ne by done).
    simpl. rewrite Hmem, Hnone. simpl.
    unfold Qcminus. by rewrite !Qcplus_0_l.
Qed.

Lemma dict_get_updated (g : graph) (d p x : person) (a : number) :
  dict_get x (updated g d p a)
  = if decide (x = p)
    then Some (dict_set d (default 0 (dict_get d (row g p)) - a) (row g p))
    else if decide (x = d)
    then Some (dict_set p (default 0 (dict_get p (row g d)) + a) (row g d))
    else dict_get x g.
Proof.
  unfold updated. rewrite !dict_get_set. repeat case_decide; try done.
  by rewrite !dict_get_ensure, !decide_False.
Qed.

Lemma edge_updated (g : graph) (d p x y : person) (a : number) :
  d ≠ p →
  edge (updated g d p a) x y
  = if decide (x = d ∧ y = p) then Some (default 0 (edge g d p) + a)
    else if decide (x = p ∧ y = d) then Some (default 0 (edge g p d) - a)
    else edge g x y.
Proof.
  intros Hdp. unfold edge at 1. rewrite dict_get_updated, !edge_row.
  repeat case_decide; simplify_eq/=; destruct_and?; simplify_eq;
    rewrite ?dict_get_set; repeat case_decide; simplify_eq; try done;
    try (by exfalso; auto).
  by rewrite <-edge_row.
Qed.

Lemma keys_updated (g : graph) (d p x : person) (a : number) :
  x ∈ dict_keys (updated g d p a) ↔ x = d ∨ x = p ∨ x ∈ dict_keys g.
Proof.
  unfold updated. rewrite !dict_keys_set, !keys_ensure. tauto.
Qed.

Lemma NoDup_updated (g : graph) (d p : person) (a : number) :
  NoDup (dict_keys g) → NoDup (dict_keys (updated g d p a)).
Proof.
  intros. unfold updated. do 2 apply dict_set_NoDup. by do 2 apply NoDup_ensure.
Qed.

Lemma flow_updated (g : graph) (d p x : person) (a : number) :
  d ≠ p →
  flow (updated g d p a) x
  = flow g x + (if decide (x = d) then a else 0)
             - (if decide (x = p) then a else 0).
Proof.
  intros Hdp. unfold flow at 1. unfold row at 1. rewrite dict_get_updated.
  pose proof (dict_sum_set id) as Hs. unfold dict_sum in Hs.
  setoid_rewrite list_fmap_id in Hs.
  repeat case_decide; simplify_eq/=; rewrite ?Hs; unfold flow.
  - destruct (dict_get d (row g p)); simpl; ring.
  - destruct (dict_get p (row g d)); simpl; ring.
  - unfold row. ring.
Qed.

Lemma grand_total_updated (g : graph) (d p : person) (a : number) :
  d ≠ p → grand_total (updated g d p a) = grand_total g.
Proof.
  intros Hdp. unfold updated, grand_total.
  pose proof (dict_sum_set id) as Hs. unfold dict_sum in Hs.
  setoid_rewrite list_fmap_id in Hs.
  rewrite !dict_sum_set, dict_get_set_ne by done.
  rewrite !dict_get_ensure. repeat case_decide; try done.
  rewrite row_ensure. simpl. rewrite !Hs.
  fold (grand_total (ensure_key p (ensure_key d g))).
  rewrite !grand_total_ensure. unfold grand_total.
  destruct (dict_get d (row g p)), (dict_get p (row g d)); simpl; ring.
Qed.

Lemma antisymmetric_mutually_present (g : graph) :
  antisymmetric g → mutually_present g.
Proof. intros Ha x y. split; intros [v Hv]; apply Ha in Hv; eauto. Qed.

Lemma mutually_present_updated (g : graph) (d p : person) (a : number) :
  mutually_present g → d ≠ p → mutually_present (updated g d p a).
Proof.
  intros Hm Hdp x y. rewrite !edge_updated by done.
  repeat case_decide; destruct_and?; simplify_eq; try done;
    try (split; eauto); try (by exfalso; auto).
Qed.

Lemma antisymmetric_updated (g : graph) (d p : person) (a : number) :
  antisymmetric g → d ≠ p → antisymmetric (updated g d p a).
Proof.
  intros Ha Hdp x y v. rewrite !edge_updated by done.
  assert (default 0 (edge g p d) = - default 0 (edge g d p)) as Hpd.
  { destruct (edge g d p) as [w|] eqn:Hw.
    - by rewrite (Ha _ _ _ Hw).
    - destruct (edge g p d) as [w'|] eqn:Hw'; [|simpl; ring].
      apply Ha in Hw'. congruence. }
  repeat case_decide; destruct_and?; simplify_eq; try (by exfalso; auto).
  - intros [= <-]. f_equal. rewrite Hpd. ring.
  - intros [= <-]. f_equal. rewrite Hpd. ring.
  - apply Ha.
Qed.

(** ** Filling the graph *)

Lemma fill_graph_spec (ts : list transaction) (g : graph) :
  mutually_present g → distinct_endpoints ts →
  ∃ g', fill_graph g ts = Ok g'
    ∧ mutually_present g'
    ∧ (∀ x y, edge g' x y = foldl (λ e t, edge_step t x y e) (edge g x y) ts)
    ∧ (∀ x, x ∈ dict_keys g' ↔ x ∈ dict_keys g ∨ x ∈ all_people ts)
    ∧ (NoDup (dict_keys g) → NoDup (dict_keys g'))
    ∧ grand_total g' = grand_total g
    ∧ (antisymmetric g → antisymmetric g').
Proof.
  intros Hm Hts. revert g Hm.
  induction Hts as [|t ts Ht Hts IH]; intros g Hm; simpl.
  - exists g. split_and!; try done.
    intros x. unfold all_people. simpl. rewrite elem_of_nil. tauto.
  - rewrite update_adjacency_graph_updated by done. simpl.
    destruct (IH (updated g (debtor t) (pay_to t) (amount t)))
      as (g' & Hfill & Hm' & Hedge & Hkeys & Hnd & Htot & Hanti).
    { by apply mutually_present_updated. }
    exists g'. split_and!; try done.
    + intros x y. rewrite Hedge, edge_updated by done. simpl. f_equal.
      unfold edge_step. repeat case_decide; destruct_and?; by simplify_eq.
    + intros x. rewrite Hkeys, keys_updated. unfold all_people.
      rewrite !elem_of_app, !fmap_cons, !elem_of_cons. tauto.
    + intros ?. by apply Hnd, NoDup_updated.
    + by rewrite Htot, grand_total_updated.
    + intros ?. by apply Hanti, antisymmetric_updated.
Qed.

(** ** The initial graph [{k: {} for k in all_people}] *)

Lemma dict_get_elem_of {V} (d : dict V) (k : person) (v : V) :
  dict_get k d = Some v → (k, v) ∈ d.
Proof.
  induction d as [|[k0 v0] d IH]; simpl; [done|].
  case_decide; simplify_eq.
  - intros [= ->]. left.
  - intros ?. right. by apply IH.
Qed.

Lemma dict_set_Forall {V} (P : person * V → Prop) (d : dict V) k v :
  Forall P d → P (k, v) → Forall P (dict_set k v d).
Proof.
  intros Hd Hkv. induction Hd as [|[k0 v0] d H0 Hd IH]; simpl.
  - by repeat constructor.
  - case_decide; by constructor.
Qed.

Lemma dict_of_list_Forall {V} (P : person * V → Prop) (kvs : list (person * V)) :
  Forall P kvs → Forall P (dict_of_list kvs).
Proof.
  unfold dict_of_list.
  assert (Forall P (@nil (person * V))) as Hnil by constructor.
  revert Hnil. generalize (@nil (person * V)).
  intros acc Hacc Hkvs. revert acc Hacc.
  induction Hkvs as [|[k v] kvs Hkv Hkvs IH]; intros acc Hacc; simpl; [done|].
  apply IH. by apply dict_set_Forall.
Qed.

Lemma dict_of_list_keys {V} (kvs : list (person * V)) (x : person) :
  x ∈ dict_keys (dict_of_list kvs) ↔ x ∈ kvs.*1.
Proof.
  unfold dict_of_list.
  transitivity (x ∈ dict_keys (@nil (person * V)) ∨ x ∈ kvs.*1).
  2:{ unfold dict_keys. simpl. rewrite elem_of_nil. tauto. }
  generalize (@nil (person * V)).
  induction kvs as [|[k v] kvs IH]; intros acc; simpl.
  - rewrite elem_of_nil. tauto.
  - rewrite IH, dict_keys_set, elem_of_cons. tauto.
Qed.

Section initial_graph_facts.
Variable order : list person.

Lemma initial_rows_empty :
  Forall (λ kv : person * dict number, kv.2 = []) (initial_graph order).
Proof. apply dict_of_list_Forall, Forall_fmap, Forall_true. done. Qed.

Lemma initial_edge (x y : person) : edge (initial_graph order) x y = None.
Proof.
  unfold edge.
  destruct (dict_get x (initial_graph order)) as [r|] eqn:Hx; [|done].
  apply dict_get_elem_of in Hx.
  pose proof initial_rows_empty as Hall. rewrite Forall_forall in Hall.
  apply Hall in Hx. simpl in Hx. by subst.
Qed.

Lemma initial_mutually_present : mutually_present (initial_graph order).
Proof. intros x y. by rewrite !initial_edge. Qed.

Lemma initial_antisymmetric : antisymmetric (initial_graph order).
Proof. intros x y v. by rewrite initial_edge. Qed.

Lemma initial_keys (x : person) :
  x ∈ dict_keys (initial_graph order) ↔ x ∈ order.
Proof.
  unfold initial_graph. rewrite dict_of_list_keys, <-list_fmap_compose.
  by rewrite list_fmap_id.
Qed.

Lemma initial_NoDup : NoDup (dict_keys (initial_graph order)).
Proof. apply dict_of_list_keys_NoDup. Qed.

Lemma initial_grand_total : grand_total (initial_graph order) = 0.
Proof.
  unfold grand_total, dict_sum, dict_values. apply sum_zero.
  rewrite <-list_fmap_compose. apply Forall_fmap.
  eapply Forall_impl; [apply initial_rows_empty|].
  intros [k r] Hr. simpl in *. by subst.
Qed.
End initial_graph_facts.

(** The builder succeeds on transactions with distinct endpoints, and its
    result is characterised edge by edge. *)
Lemma transaction_adjacency_graph_spec (order : list person)
    (ts : list transaction) :
  distinct_endpoints ts →
  ∃ g, transaction_adjacency_graph order ts = Ok g
    ∧ mutually_present g
    ∧ antisymmetric g
    ∧ (∀ x y, edge g x y = foldl (λ e t, edge_step t x y e) None ts)
    ∧ (∀ x, x ∈ dict_keys g ↔ x ∈ order ∨ x ∈ all_people ts)
    ∧ NoDup (dict_keys g)
    ∧ grand_total g = 0.
Proof.
  intros Hts. unfold transaction_adjacency_graph.
  destruct (fill_graph_spec ts _ (initial_mutually_present order) Hts)
    as (g & Hfill & Hm & Hedge & Hkeys & Hnd & Htot & Hanti).
  exists g. split_and!; try done.
  - apply Hanti, initial_antisymmetric.
  - intros x y. by rewrite Hedge, initial_edge.
  - intros x. by rewrite Hkeys, initial_keys.
  - apply Hnd, initial_NoDup.
  - by rewrite Htot, initial_grand_total.
Qed.

(** ** Net balances *)

Lemma totals_of_keys (g : graph) : dict_keys (totals_of g) = dict_keys g.
Proof.
  unfold totals_of, dict_keys. rewrite <-list_fmap_compose.
  by apply list_fmap_ext.
Qed.

Lemma dict_get_totals_of (g : graph) (k : person) :
  dict_get k (totals_of g) = (λ r, sum (dict_values r)) <$> dict_get k g.
Proof.
  unfold totals_of. induction g as [|[k0 r0] g IH]; simpl; [done|].
  by case_decide.
Qed.

Lemma dict_get_totals_of_flow (g : graph) (k : person) :
  k ∈ dict_keys g → dict_get k (totals_of g) = Some (flow g k).
Proof.
  intros [r Hr]%dict_get_keys. rewrite dict_get_totals_of.
  unfold flow, row. by rewrite Hr.
Qed.

Lemma sum_totals_of (g : graph) : sum (dict_values (totals_of g)) = grand_total g.
Proof.
  unfold totals_of, grand_total, dict_sum, dict_values.
  rewrite <-!list_fmap_compose. f_equal.
Qed.

Lemma mapM_getitem {B} (g : graph) (f : person → dict number → B)
    (l : list (person * dict number)) :
  (∀ k r, (k, r) ∈ l → dict_get k g = Some r) →
  mapM (λ k, row ← getitem g k; mret (f k row)) l.*1
  = Ok ((λ kv, f kv.1 kv.2) <$> l).
Proof.
  induction l as [|[k r] l IH]; intros Hl; simpl; [done|].
  rewrite (getitem_Some g k r) by (apply Hl; left).
  assert (∀ k' r', (k', r') ∈ l → dict_get k' g = Some r') as Hl'.
  { intros k' r' Hin. apply Hl. by right. }
  specialize (IH Hl'). simpl. unfold fmap in IH. by rewrite IH.
Qed.

Lemma people_and_total_debt_eq (g : graph) :
  NoDup (dict_keys g) →
  people_and_total_debt g = Ok (dict_keys g, totals_of g).
Proof.
  intros Hnd. unfold people_and_total_debt. cbv zeta.
  pose proof (mapM_getitem g (λ k r, (k, sum (dict_values r))) g) as Hm.
  change (g.*1) with (dict_keys g) in Hm.
  rewrite Hm by (intros k r; by apply dict_get_NoDup).
  simpl. fold (totals_of g). rewrite dict_of_list_NoDup; [done|].
  fold (dict_keys (totals_of g)). by rewrite totals_of_keys.
Qed.

(** ** C1: conservation of money *)

(** C1 (as amended): with exact arithmetic on the amounts, for every list
    of transactions whose debtor and payee differ, the builder returns a
    graph, and the net totals computed from it by [people_and_total_debt]
    sum to exactly zero, whatever the order in which the set of people is
    iterated. *)
Theorem conservation_of_money (order : list person) (ts : list transaction) :
  distinct_endpoints ts →
  ∃ g people totals,
    transaction_adjacency_graph order ts = Ok g
    ∧ people_and_total_debt g = Ok (people, totals)
    ∧ sum (dict_values totals) = 0.
Proof.
  intros Hts.
  destruct (transaction_adjacency_graph_spec order ts Hts)
    as (g & Hg & _ & _ & _ & _ & Hnd & Htot).
  exists g, (dict_keys g), (totals_of g). split_and!; [done| |].
  - by apply people_and_total_debt_eq.
  - by rewrite sum_totals_of.
Qed.

Lemma conservation_of_money_witness :
  ∃ g people totals,
    transaction_adjacency_graph
      (first_seen_order (all_people standard_transactions))
      standard_transactions = Ok g
    ∧ people_and_total_debt g = Ok (people, totals)
    ∧ sum (dict_values totals) = 0.
Proof.
  apply (conservation_of_money _ standard_transactions).
  repeat constructor; discriminate.
Defined.

(** ** C3: a balance update preserves antisymmetry *)

(** C3: on a graph whose edges are present in both directions and
    antisymmetric, a call of [update_adjacency_graph] with two distinct
    persons and any amount passes its assertion and returns a graph whose
    edges are again present in both directions and antisymmetric. *)
Theorem update_preserves_antisymmetry (g : graph) (d p : person) (a : number) :
  mutually_present g → antisymmetric g → d ≠ p →
  ∃ g', update_adjacency_graph g d p a = Ok g'
    ∧ mutually_present g'
    ∧ antisymmetric g'.
Proof.
  intros Hm Ha Hdp. exists (updated g d p a). split_and!.
  - by apply update_adjacency_graph_updated.
  - by apply mutually_present_updated.
  - by apply antisymmetric_updated.
Qed.

Lemma update_preserves_antisymmetry_witness :
  ∃ g', update_adjacency_graph
          [("A", [("B", num 5)]); ("B", [("A", num (-5))])] "A" "C" (num 3)
        = Ok g'
    ∧ mutually_present g'
    ∧ antisymmetric g'.
Proof.
  apply (update_preserves_antisymmetry
           [("A", [("B", num 5)]); ("B", [("A", num (-5))])] "A" "C" (num 3)).
  - intros a b. unfold edge. simpl.
    repeat (case_decide; simplify_eq/=); split; intros [? ?]; by eauto.
  - intros a b v. unfold edge. simpl.
    repeat (case_decide; simplify_eq/=); try done;
      intros [= <-]; f_equal; by apply Qc_is_canon.
  - discriminate.
Defined.

(** ** C10: a transaction from a person to the same person *)





(** ** C8: the builder does not depend on the order of the transactions *)

(** [first_seen_order] is one of the iteration orders. *)
Lemma first_seen_order_spec (s : list person) :
  set_iteration_order s (first_seen_order s).
Proof.
  unfold first_seen_order. split.
  - rewrite reverse_Permutation. apply NoDup_remove_dups.
  - intros x. by rewrite elem_of_reverse, elem_of_remove_dups, elem_of_reverse.
Qed.

Lemma edge_step_comm (t1 t2 : transaction) (x y : person) (e : option number) :
  edge_step t1 x y (edge_step t2 x y e) = edge_step t2 x y (edge_step t1 x y e).
Proof.
  unfold edge_step. repeat case_decide; simpl; try done; f_equal; ring.
Qed.

Lemma foldl_edge_step_perm (ts ts' : list transaction) (x y : person) :
  ts ≡ₚ ts' →
  ∀ e, foldl (λ e t, edge_step t x y e) e ts
     = foldl (λ e t, edge_step t x y e) e ts'.
Proof.
  induction 1 as [|t ts ts' _ IH|t1 t2 ts|ts1 ts2 ts3 _ IH1 _ IH2];
    intros e; simpl.
  - done.
  - apply IH.
  - by rewrite edge_step_comm.
  - by rewrite IH1.
Qed.

Lemma all_people_perm (ts ts' : list transaction) (x : person) :
  ts ≡ₚ ts' → x ∈ all_people ts ↔ x ∈ all_people ts'.
Proof. intros Hp. unfold all_people. by rewrite Hp. Qed.

Lemma graph_equiv_intro (g g' : graph) :
  (∀ x, x ∈ dict_keys g ↔ x ∈ dict_keys g') →
  (∀ x y, edge g x y = edge g' x y) →
  graph_equiv g g'.
Proof.
  intros Hkeys Hedge x. specialize (Hkeys x). rewrite <-!dict_get_keys in Hkeys.
  destruct (dict_get x g) as [r|] eqn:Hr, (dict_get x g') as [r'|] eqn:Hr'.
  - constructor. intros y. specialize (Hedge x y). unfold edge in Hedge.
    rewrite Hr, Hr' in Hedge. simpl in Hedge. rewrite Hedge.
    by destruct (dict_get y r'); constructor.
  - destruct (proj1 Hkeys) as [? ?]; by eauto.
  - destruct (proj2 Hkeys) as [? ?]; by eauto.
  - constructor.
Qed.

(** C8 (as amended): with exact arithmetic on the amounts, two lists of
    transactions with distinct endpoints that are permutations of each other
    give graphs that are equal as mappings (same keys, same rows as
    mappings), whatever the orders in which the two sets of people are
    iterated. *)
Theorem builder_order_independent (order order' : list person)
    (ts ts' : list transaction) :
  distinct_endpoints ts → ts ≡ₚ ts' →
  set_iteration_order (all_people ts) order →
  set_iteration_order (all_people ts') order' →
  ∃ g g', transaction_adjacency_graph order ts = Ok g
    ∧ transaction_adjacency_graph order' ts' = Ok g'
    ∧ graph_equiv g g'.
Proof.
  intros Hts Hperm [_ Ho] [_ Ho'].
  assert (distinct_endpoints ts') as Hts'.
  { unfold distinct_endpoints. by rewrite <-Hperm. }
  destruct (transaction_adjacency_graph_spec order ts Hts)
    as (g & Hg & _ & _ & Hedge & Hkeys & _).
  destruct (transaction_adjacency_graph_spec order' ts' Hts')
    as (g' & Hg' & _ & _ & Hedge' & Hkeys' & _).
  exists g, g'. split_and!; [done..|].
  apply graph_equiv_intro.
  - intros x. rewrite Hkeys, Hkeys', Ho, Ho'.
    rewrite (all_people_perm ts ts' x Hperm). tauto.
  - intros x y. rewrite Hedge, Hedge'. by apply foldl_edge_step_perm.
Qed.

Lemma builder_order_independent_witness :
  ∃ g g',
    transaction_adjacency_graph
      (first_seen_order (all_people dup_pair_transactions))
      dup_pair_transactions = Ok g
    ∧ transaction_adjacency_graph
        (first_seen_order (all_people (reverse dup_pair_transactions)))
        (reverse dup_pair_transactions) = Ok g'
    ∧ graph_equiv g g'.
Proof.
  apply (builder_order_independent _ _ dup_pair_transactions
           (reverse dup_pair_transactions)).
  - repeat constructor; discriminate.
  - symmetry. apply reverse_Permutation.
  - apply first_seen_order_spec.
  - apply first_seen_order_spec.
Defined.

(** ** The state before the loop *)

Lemma comprehension_filter {A B} (elt : A → outcome B) (cond : A → outcome bool)
    (P : A → Prop) `{!∀ x, Decision (P x)} (f : A → B) (l : list A) :
  (∀ x, x ∈ l → cond x = Ok (bool_decide (P x)) ∧ elt x = Ok (f x)) →
  comprehension elt cond l = Ok (f <$> filter P l).
Proof.
  induction l as [|x l IH]; intros Hl; simpl; [done|].
  destruct (Hl x) as [-> Helt]; [left|]. simpl.
  assert (comprehension elt cond l = Ok (f <$> filter P l)) as IH'.
  { apply IH. intros y Hy. apply Hl. by right. }
  rewrite filter_cons. destruct (decide (P x)) as [HP|HP].
  - rewrite bool_decide_eq_true_2 by done. rewrite Helt. simpl.
    by rewrite IH'.
  - by rewrite bool_decide_eq_false_2 by done.
Qed.

Lemma receivers_comprehension (g : graph) :
  comprehension
    (λ p, t ← getitem (totals_of g) p; mret (p, - t))
    (λ p, t ← getitem (totals_of g) p; mret (bool_decide (t < 0)))
    (dict_keys g)
  = Ok (receivers_of g).
Proof.
  apply (comprehension_filter _ _ (λ p, flow g p < 0) (λ p, (p, - flow g p))).
  intros p Hp.
  by rewrite (getitem_Some _ _ _ (dict_get_totals_of_flow g p Hp)).
Qed.

Lemma givers_comprehension (g : graph) :
  comprehension
    (λ p, t ← getitem (totals_of g) p; mret (p, t))
    (λ p, t ← getitem (totals_of g) p; mret (bool_decide (0 < t)))
    (dict_keys g)
  = Ok (givers_of g).
Proof.
  apply (comprehension_filter _ _ (λ p, 0 < flow g p) (λ p, (p, flow g p))).
  intros p Hp.
  by rewrite (getitem_Some _ _ _ (dict_get_totals_of_flow g p Hp)).
Qed.

Lemma initial_state_eq (g : graph) :
  NoDup (dict_keys g) →
  initial_state g = Ok (LoopState (givers_of g) (receivers_of g) 0 0 []).
Proof.
  intros Hnd. unfold initial_state.
  rewrite people_and_total_debt_eq by done. simpl.
  rewrite receivers_comprehension. simpl.
  by rewrite givers_comprehension.
Qed.

(** ** Givers and receivers *)

Lemma givers_of_names (g : graph) :
  (givers_of g).*1 = filter (λ p, 0 < flow g p) (dict_keys g).
Proof.
  unfold givers_of. rewrite <-list_fmap_compose. apply list_fmap_id.
Qed.

Lemma receivers_of_names (g : graph) :
  (receivers_of g).*1 = filter (λ p, flow g p < 0) (dict_keys g).
Proof.
  unfold receivers_of. rewrite <-list_fmap_compose. apply list_fmap_id.
Qed.

Lemma givers_of_amounts (g : graph) :
  (givers_of g).*2 = flow g <$> filter (λ p, 0 < flow g p) (dict_keys g).
Proof. unfold givers_of. by rewrite <-list_fmap_compose. Qed.

Lemma receivers_of_amounts (g : graph) :
  (receivers_of g).*2
  = (λ p, - flow g p) <$> filter (λ p, flow g p < 0) (dict_keys g).
Proof. unfold receivers_of. by rewrite <-list_fmap_compose. Qed.

Lemma elem_of_givers_of (g : graph) (e : person * number) :
  e ∈ givers_of g → e.2 = flow g e.1 ∧ 0 < e.2 ∧ e.1 ∈ dict_keys g.
Proof.
  unfold givers_of.
  intros (p & -> & [Hp Hin]%list_elem_of_filter)%list_elem_of_fmap.
  done.
Qed.

Lemma elem_of_receivers_of (g : graph) (e : person * number) :
  e ∈ receivers_of g → e.2 = - flow g e.1 ∧ 0 < e.2 ∧ e.1 ∈ dict_keys g.
Proof.
  unfold receivers_of.
  intros (p & -> & [Hp Hin]%list_elem_of_filter)%list_elem_of_fmap.
  simpl. split_and!; [done| |done].
  apply Qclt_minus_iff in Hp. by rewrite Qcplus_0_l in Hp.
Qed.

Lemma names_NoDup (g : graph) :
  NoDup (dict_keys g) → NoDup ((givers_of g).*1 ++ (receivers_of g).*1).
Proof.
  intros Hnd. rewrite givers_of_names, receivers_of_names.
  apply NoDup_app. split_and!; try by apply NoDup_filter.
  intros p [Hpos _]%list_elem_of_filter [Hneg _]%list_elem_of_filter.
  apply (irreflexivity Qclt 0). by trans (flow g p).
Qed.

Lemma sum_split_sign (f : person → number) (l : list person) :
  sum (f <$> l)
  = sum (f <$> filter (λ p, 0 < f p) l)
    - sum ((λ p, - f p) <$> filter (λ p, f p < 0) l).
Proof.
  induction l as [|p l IH].
  - simpl. rewrite !sum_nil. ring.
  - rewrite fmap_cons, !filter_cons, sum_cons, IH.
    destruct (decide (0 < f p)) as [Hpos|Hpos],
      (decide (f p < 0)) as [Hneg|Hneg];
      rewrite ?fmap_cons, ?sum_cons; try ring.
    + exfalso. apply (irreflexivity Qclt 0). by trans (f p).
    + assert (f p = 0) as ->; [|ring].
      apply (anti_symm Qcle); by apply Qcle_ngt.
Qed.

Lemma grand_total_flows (g : graph) :
  NoDup (dict_keys g) → grand_total g = sum (flow g <$> dict_keys g).
Proof.
  intros Hnd. unfold grand_total, dict_sum, dict_values, dict_keys.
  rewrite <-!list_fmap_compose. f_equal. apply list_fmap_ext.
  intros i [k r] Hi. simpl. unfold flow, row.
  by rewrite (dict_get_NoDup g k r Hnd) by by eapply list_elem_of_lookup_2.
Qed.

Lemma givers_receivers_sum (g : graph) :
  NoDup (dict_keys g) → grand_total g = 0 →
  sum (givers_of g).*2 = sum (receivers_of g).*2.
Proof.
  intros Hnd Htot. rewrite grand_total_flows in Htot by done.
  rewrite sum_split_sign in Htot.
  rewrite givers_of_amounts, receivers_of_amounts.
  apply Qcplus_inj_l with (- sum ((λ p, - flow g p) <$>
    filter (λ p, flow g p < 0) (dict_keys g))).
  simpl. unfold Qcminus in Htot. rewrite Htot. ring.
Qed.

Lemma flow_nil (k : person) : flow [] k = 0.
Proof. reflexivity. Qed.

Lemma loop_inv_initial (g : graph) :
  NoDup (dict_keys g) → grand_total g = 0 →
  loop_inv (givers_of g) (receivers_of g)
    (LoopState (givers_of g) (receivers_of g) 0 0 []).
Proof.
  intros Hnd Htot. split; simpl; try done.
  - intros i e e0 He He0. simplify_eq. rewrite flow_nil.
    apply list_elem_of_lookup_2, elem_of_givers_of in He as (_ & Hpos & _).
    split_and!; [done|ring|exact (Qclt_le_weak _ _ Hpos)|intros; lia].
  - intros j e e0 He He0. simplify_eq. rewrite flow_nil.
    apply list_elem_of_lookup_2, elem_of_receivers_of in He as (_ & Hpos & _).
    split_and!; [done|ring|intros; lia|done].
  - by apply givers_receivers_sum.
  - intros k. unfold dict_keys. simpl. by intros ?%elem_of_nil.
Qed.

(** ** One iteration of the greedy loop *)

Lemma flow_updated_other (g : graph) (d p x : person) (a : number) :
  d ≠ p → x ≠ d → x ≠ p → flow (updated g d p a) x = flow g x.
Proof. intros. rewrite flow_updated, !decide_False by done. ring. Qed.

Lemma flow_updated_debtor (g : graph) (d p : person) (a : number) :
  d ≠ p → flow (updated g d p a) d = flow g d + a.
Proof. intros. rewrite flow_updated, decide_True, decide_False by done. ring. Qed.

Lemma flow_updated_payee (g : graph) (d p : person) (a : number) :
  d ≠ p → flow (updated g d p a) p = flow g p - a.
Proof.
  intros. rewrite flow_updated, decide_False, decide_True by done. ring.
Qed.

(** Both branches of the loop body transfer the smaller of the two remaining
    amounts; they differ in the cursor they advance. *)
Lemma loop_body_eq (s : loop_state) (gn rn : person) (ga ra : number) :
  givers s !! current_giver s = Some (gn, ga) →
  receivers s !! current_receiver s = Some (rn, ra) →
  loop_body s =
    let lt := bool_decide (ga < ra) in
    let give_amount := if lt then ga else ra in
    h ← update_adjacency_graph (simplified_debt_hash s) gn rn give_amount;
    mret (LoopState
            (<[current_giver s := (gn, ga - give_amount)]> (givers s))
            (<[current_receiver s := (rn, ra - give_amount)]> (receivers s))
            (if lt then S (current_giver s) else current_giver s)
            (if lt then current_receiver s else S (current_receiver s))
            h).
Proof.
  intros Hg Hr. unfold loop_body, index. rewrite Hg, Hr. simpl.
  by destruct (bool_decide (ga < ra)).
Qed.

Section greedy_loop.
Variables G R : list (person * number).
Hypothesis names_distinct : NoDup (G.*1 ++ R.*1).

Lemma inv_giver_entry s i e :
  loop_inv G R s → givers s !! i = Some e →
  ∃ e0, G !! i = Some e0 ∧ e.1 = e0.1
    ∧ flow (simplified_debt_hash s) e.1 + e.2 = e0.2 ∧ 0 ≤ e.2
    ∧ ((i < current_giver s)%nat → e.2 = 0).
Proof.
  intros Hinv He.
  destruct (lookup_lt_is_Some_2 G i) as [e0 He0].
  { rewrite <-(inv_givers_length _ _ _ Hinv). by eapply lookup_lt_Some. }
  exists e0. split; [done|]. by eapply inv_givers.
Qed.

Lemma inv_receiver_entry s j e :
  loop_inv G R s → receivers s !! j = Some e →
  ∃ e0, R !! j = Some e0 ∧ e.1 = e0.1
    ∧ e.2 - flow (simplified_debt_hash s) e.1 = e0.2
    ∧ ((j < current_receiver s)%nat → e.2 = 0)
    ∧ ((current_receiver s ≤ j)%nat → 0 < e.2).
Proof.
  intros Hinv He.
  destruct (lookup_lt_is_Some_2 R j) as [e0 He0].
  { rewrite <-(inv_receivers_length _ _ _ Hinv). by eapply lookup_lt_Some. }
  exists e0. split; [done|]. by eapply inv_receivers.
Qed.

Lemma inv_givers_nonneg s :
  loop_inv G R s → Forall (λ x, 0 ≤ x) (givers s).*2.
Proof.
  intros Hinv. apply Forall_fmap, Forall_lookup. intros i e He.
  by destruct (inv_giver_entry s i e Hinv He) as (_ & _ & _ & _ & ? & _).
Qed.

Lemma inv_receivers_nonneg s :
  loop_inv G R s → Forall (λ x, 0 ≤ x) (receivers s).*2.
Proof.
  intros Hinv. apply Forall_fmap, Forall_lookup. intros j e He.
  destruct (inv_receiver_entry s j e Hinv He) as (_ & _ & _ & _ & Hz & Hp).
  simpl. destruct (decide (j < current_receiver s)%nat).
  - by rewrite Hz.
  - apply Qclt_le_weak, Hp. lia.
Qed.

(** While a receiver is waiting, the giver cursor is inside [givers]. *)
Lemma giver_in_bounds s :
  loop_inv G R s →
  (current_receiver s < length (receivers s))%nat →
  (current_giver s < length (givers s))%nat.
Proof.
  intros Hinv Hr.
  destruct (lookup_lt_is_Some_2 _ _ Hr) as [e He].
  destruct (inv_receiver_entry s _ e Hinv He) as (_ & _ & _ & _ & _ & Hpos).
  assert (0 < sum (receivers s).*2) as Hsum.
  { eapply (sum_pos _ (current_receiver s) e.2).
    - by apply inv_receivers_nonneg.
    - by rewrite list_lookup_fmap, He.
    - apply Hpos. lia. }
  rewrite <-(inv_sum _ _ _ Hinv) in Hsum.
  destruct (decide (current_giver s < length (givers s))%nat); [done|].
  exfalso. apply (irreflexivity Qclt 0).
  rewrite sum_zero in Hsum; [done|].
  apply Forall_fmap, Forall_lookup. intros i e' He'.
  destruct (inv_giver_entry s i e' Hinv He') as (_ & _ & _ & _ & _ & Hz).
  apply Hz. apply lookup_lt_Some in He'. lia.
Qed.

Lemma giver_name_unique i j e e' :
  G !! i = Some e → G !! j = Some e' → e.1 = e'.1 → i = j.
Proof.
  intros Hi Hj Heq.
  apply NoDup_app in names_distinct as (Hnd & _ & _).
  eapply NoDup_lookup; [done| |].
  - by rewrite list_lookup_fmap, Hi.
  - by rewrite list_lookup_fmap, Hj, Heq.
Qed.

Lemma receiver_name_unique i j e e' :
  R !! i = Some e → R !! j = Some e' → e.1 = e'.1 → i = j.
Proof.
  intros Hi Hj Heq.
  apply NoDup_app in names_distinct as (_ & _ & Hnd).
  eapply NoDup_lookup; [done| |].
  - by rewrite list_lookup_fmap, Hi.
  - by rewrite list_lookup_fmap, Hj, Heq.
Qed.

Lemma giver_receiver_names i j e e' :
  G !! i = Some e → R !! j = Some e' → e.1 ≠ e'.1.
Proof.
  intros Hi Hj Heq.
  apply NoDup_app in names_distinct as (_ & Hdisj & _).
  apply (Hdisj e.1).
  - apply list_elem_of_fmap. exists e. split; [done|].
    by eapply list_elem_of_lookup_2.
  - rewrite Heq. apply list_elem_of_fmap. exists e'. split; [done|].
    by eapply list_elem_of_lookup_2.
Qed.

(** The invariant is kept by an iteration, which raises no exception and
    advances exactly one cursor. *)
Lemma loop_body_inv s :
  loop_inv G R s →
  (current_receiver s < length (receivers s))%nat →
  ∃ s', loop_body s = Ok s' ∧ loop_inv G R s'
    ∧ (current_giver s < length (givers s))%nat
    ∧ ((current_giver s' = S (current_giver s)
        ∧ current_receiver s' = current_receiver s)
       ∨ (current_giver s' = current_giver s
          ∧ current_receiver s' = S (current_receiver s))).
Proof.
  intros Hinv Hr. pose proof (giver_in_bounds s Hinv Hr) as Hg.
  destruct (lookup_lt_is_Some_2 _ _ Hg) as [[gn ga] Hgl].
  destruct (lookup_lt_is_Some_2 _ _ Hr) as [[rn ra] Hrl].
  destruct (inv_giver_entry s _ _ Hinv Hgl)
    as (g0 & Hg0 & Hgn & Hgflow & Hga & _).
  destruct (inv_receiver_entry s _ _ Hinv Hrl)
    as (r0 & Hr0 & Hrn & Hrflow & _ & Hra).
  simpl in *. specialize (Hra (reflexivity _)).
  assert (gn ≠ rn) as Hne.
  { rewrite Hgn, Hrn. by eapply giver_receiver_names. }
  rewrite (loop_body_eq s gn rn ga ra Hgl Hrl). cbv zeta.
  set (lt := bool_decide (ga < ra)).
  set (amt := if lt then ga else ra).
  assert (0 ≤ ga - amt ∧ 0 ≤ ra - amt
          ∧ ((lt = true ∧ amt = ga ∧ 0 < ra - amt) ∨ (lt = false ∧ amt = ra)))
    as (Hga' & Hra' & Hcase).
  { unfold amt, lt. destruct (decide (ga < ra)) as [Hlt|Hlt].
    - rewrite bool_decide_eq_true_2 by done.
      assert (0 < ra - ga) as Hd by by apply Qclt_minus_iff in Hlt.
      split_and!; [|by apply Qclt_le_weak|by left].
      replace (ga - ga) with 0 by ring. done.
    - rewrite bool_decide_eq_false_2 by done.
      apply Qcle_ngt in Hlt.
      split_and!; [by apply Qcle_minus_iff in Hlt| |by right].
      replace (ra - ra) with 0 by ring. done. }
  clearbody amt lt.
  rewrite update_adjacency_graph_updated
    by (done || apply (inv_mutual _ _ _ Hinv)).
  simpl. eexists. split; [reflexivity|].
  split; [|split; [done|destruct Hcase as [(-> & _)|(-> & _)]; simpl; auto]].
  split; simpl.
  - by rewrite length_insert, (inv_givers_length _ _ _ Hinv).
  - by rewrite length_insert, (inv_receivers_length _ _ _ Hinv).
  - intros i e e0 He He0. destruct (decide (i = current_giver s)) as [->|Hi].
    + rewrite list_lookup_insert_eq in He by done. simplify_eq/=.
      rewrite flow_updated_debtor by done.
      split_and!; [done| |done|].
      * rewrite <-Hgflow. ring.
      * destruct Hcase as [(-> & -> & _)|(-> & _)]; intros ?; [ring|lia].
    + rewrite list_lookup_insert_ne in He by done.
      destruct (inv_giver_entry s _ _ Hinv He)
        as (e0' & He0' & Hn & Hflow & Hnn & Hz).
      assert (e0' = e0) as -> by congruence.
      split_and!; [done| |done|].
      * rewrite flow_updated_other; [done..| |].
        -- rewrite Hn, Hgn. intros Heq.
           by apply Hi, (giver_name_unique _ _ _ _ He0 Hg0).
        -- rewrite Hn, Hrn. by eapply giver_receiver_names.
      * intros Hlt. apply Hz.
        destruct Hcase as [(-> & _)|(-> & _)]; lia.
  - intros j e e0 He He0. destruct (decide (j = current_receiver s)) as [->|Hj].
    + rewrite list_lookup_insert_eq in He by done. simplify_eq/=.
      rewrite flow_updated_payee by done.
      split_and!; [done| | |].
      * rewrite <-Hrflow. ring.
      * destruct Hcase as [(-> & _)|(-> & ->)]; intros ?; [lia|ring].
      * destruct Hcase as [(-> & _ & ?)|(-> & _)]; intros ?; [done|lia].
    + rewrite list_lookup_insert_ne in He by done.
      destruct (inv_receiver_entry s _ _ Hinv He)
        as (e0' & He0' & Hn & Hflow & Hz & Hp).
      assert (e0' = e0) as -> by congruence.
      split_and!; [done| | |].
      * rewrite flow_updated_other; [done..| |].
        -- rewrite Hn, Hgn. intros Heq. symmetry in Heq.
           by eapply giver_receiver_names.
        -- rewrite Hn, Hrn. intros Heq.
           by apply Hj, (receiver_name_unique _ _ _ _ He0 Hr0).
      * intros Hlt. apply Hz.
        destruct Hcase as [(-> & _)|(-> & _)]; lia.
      * intros Hle. apply Hp.
        destruct Hcase as [(-> & _)|(-> & _)]; lia.
  - rewrite !list_fmap_insert. simpl.
    rewrite (sum_insert _ _ ga), (sum_insert _ _ ra).
    + rewrite (inv_sum _ _ _ Hinv). ring.
    + by rewrite list_lookup_fmap, Hrl.
    + by rewrite list_lookup_fmap, Hgl.
  - apply mutually_present_updated; [apply (inv_mutual _ _ _ Hinv)|done].
  - intros k [->|[->|Hk]]%keys_updated.
    + left. rewrite Hgn. apply list_elem_of_fmap. exists g0.
      split; [done|]. by eapply list_elem_of_lookup_2.
    + right. rewrite Hrn. apply list_elem_of_fmap. exists r0.
      split; [done|]. by eapply list_elem_of_lookup_2.
    + by apply (inv_keys _ _ _ Hinv).
Qed.
End greedy_loop.

(** ** The whole loop *)

Lemma loop_reaches_step_first (s s1 s' : loop_state) :
  (current_receiver s < length (receivers s))%nat →
  loop_body s = Ok s1 →
  loop_reaches s1 s' → loop_reaches s s'.
Proof.
  intros Hr Hbody. induction 1 as [|s2 s3 _ IH Hr2 Hbody2].
  - eapply reaches_step; [apply reaches_start|done..].
  - by eapply reaches_step.
Qed.

Section greedy_run.
Variables G R : list (person * number).
Hypothesis names_distinct : NoDup (G.*1 ++ R.*1).

Lemma loop_reaches_inv s0 s :
  loop_inv G R s0 → loop_reaches s0 s → loop_inv G R s.
Proof.
  intros Hinv. induction 1 as [|s s' _ IH Hr Hbody]; [done|].
  destruct (loop_body_inv G R names_distinct s IH Hr) as (s'' & Hs'' & ? & _).
  congruence.
Qed.

(** The loop ends without an exception within the granted iterations. *)
Lemma while_loop_terminates fuel s :
  loop_inv G R s →
  ((length (givers s) - current_giver s)
   + (length (receivers s) - current_receiver s) ≤ fuel)%nat →
  ∃ s', while_loop fuel s = Some (Ok s')
    ∧ loop_inv G R s'
    ∧ loop_reaches s s'
    ∧ (length (receivers s') ≤ current_receiver s')%nat.
Proof.
  revert s. induction fuel as [|fuel IH]; intros s Hinv Hfuel.
  - simpl. case_decide as Hr.
    + pose proof (giver_in_bounds G R s Hinv Hr). lia.
    + exists s. split_and!; [done..|apply reaches_start|lia].
  - simpl. case_decide as Hr.
    + destruct (loop_body_inv G R names_distinct s Hinv Hr)
        as (s1 & Hbody & Hinv1 & Hg & Hadv).
      rewrite Hbody.
      destruct (IH s1 Hinv1) as (s' & Hs' & Hinv' & Hreach & Hend).
      { rewrite (inv_givers_length _ _ _ Hinv1),
          (inv_receivers_length _ _ _ Hinv1).
        rewrite (inv_givers_length _ _ _ Hinv),
          (inv_receivers_length _ _ _ Hinv) in *.
        destruct Hadv as [[-> ->]|[-> ->]]; lia. }
      exists s'. split_and!; [done..| |done].
      by eapply loop_reaches_step_first.
    + exists s. split_and!; [done..|apply reaches_start|lia].
Qed.

(** When the receivers are exhausted, everybody has been assigned exactly
    the initial amount. *)
Lemma loop_inv_final s :
  loop_inv G R s →
  (length (receivers s) ≤ current_receiver s)%nat →
  (∀ e0, e0 ∈ G → flow (simplified_debt_hash s) e0.1 = e0.2)
  ∧ (∀ e0, e0 ∈ R → flow (simplified_debt_hash s) e0.1 = - e0.2).
Proof.
  intros Hinv Hend.
  assert (∀ j e, receivers s !! j = Some e → e.2 = 0) as Hrz.
  { intros j e He.
    destruct (inv_receiver_entry G R s j e Hinv He) as (_ & _ & _ & _ & Hz & _).
    apply Hz. apply lookup_lt_Some in He. lia. }
  assert (Forall (λ x, x = 0) (givers s).*2) as Hgz.
  { apply sum_nonneg_zero; [by apply (inv_givers_nonneg G R)|].
    rewrite (inv_sum _ _ _ Hinv). apply sum_zero.
    apply Forall_fmap, Forall_lookup. intros j e He. by apply (Hrz j). }
  rewrite Forall_fmap, Forall_lookup in Hgz.
  split; intros e0 [i Hi]%list_elem_of_lookup_1.
  - destruct (lookup_lt_is_Some_2 (givers s) i) as [e He].
    { rewrite (inv_givers_length _ _ _ Hinv). by eapply lookup_lt_Some. }
    destruct (inv_givers _ _ _ Hinv i e e0 He Hi) as (Hn & Hflow & _).
    specialize (Hgz i e He). simpl in Hgz.
    rewrite <-Hn, <-Hflow, Hgz. ring.
  - destruct (lookup_lt_is_Some_2 (receivers s) i) as [e He].
    { rewrite (inv_receivers_length _ _ _ Hinv). by eapply lookup_lt_Some. }
    destruct (inv_receivers _ _ _ Hinv i e e0 He Hi) as (Hn & Hflow & _).
    rewrite <-Hn, <-Hflow, (Hrz i e He). ring.
Qed.
End greedy_run.

(** The simplifier on a graph with distinct keys whose totals add up to
    zero: the loop is entered in the expected state, runs to the end and
    leaves every person with the net total of the input graph. *)
Lemma simplify_transactions_run (g : graph) :
  NoDup (dict_keys g) → grand_total g = 0 →
  let s0 := LoopState (givers_of g) (receivers_of g) 0 0 [] in
  initial_state g = Ok s0
  ∧ ∃ s, while_loop (loop_fuel s0) s0 = Some (Ok s)
      ∧ simplify_transactions g = Some (Ok (simplified_debt_hash s))
      ∧ loop_inv (givers_of g) (receivers_of g) s
      ∧ loop_reaches s0 s
      ∧ (length (receivers s) ≤ current_receiver s)%nat.
Proof.
  intros Hnd Htot s0. pose proof (initial_state_eq g Hnd) as Hinit.
  split; [done|].
  destruct (while_loop_terminates (givers_of g) (receivers_of g)
              (names_NoDup g Hnd) (loop_fuel s0) s0)
    as (s & Hs & Hinv & Hreach & Hend).
  { by apply loop_inv_initial. }
  { unfold loop_fuel, s0. simpl. lia. }
  exists s. split_and!; try done.
  unfold simplify_transactions. subst s0. by rewrite Hinit, Hs.
Qed.

(** ** C2: the plan keeps everybody's net position *)

Lemma flow_nonzero_key (h : graph) (k : person) :
  flow h k ≠ 0 →
  ∃ r, dict_get k h = Some r ∧ sum (dict_values r) = flow h k.
Proof.
  unfold flow, row. destruct (dict_get k h) as [r|]; [by eauto|].
  intros H. by destruct H.
Qed.

(** C2 (as amended): with exact arithmetic on the amounts, for
    transactions with distinct endpoints the simplifier returns a plan; for
    every person [P] of the graph whose net total is not zero,
    [simplified[P]] exists and its values sum to the net total of [P]; a
    person whose net total is zero is not a key of the plan. *)
Theorem simplified_conservation (order : list person) (ts : list transaction) :
  distinct_endpoints ts →
  ∃ g people totals h,
    transaction_adjacency_graph order ts = Ok g
    ∧ people_and_total_debt g = Ok (people, totals)
    ∧ simplify_transactions g = Some (Ok h)
    ∧ ∀ P t, dict_get P totals = Some t →
        (t ≠ 0 → ∃ r, dict_get P h = Some r ∧ sum (dict_values r) = t)
        ∧ (t = 0 → dict_get P h = None).
Proof.
  intros Hts.
  destruct (transaction_adjacency_graph_spec order ts Hts)
    as (g & Hg & _ & _ & _ & _ & Hnd & Htot).
  destruct (simplify_transactions_run g Hnd Htot)
    as (_ & s & _ & Hsimp & Hinv & _ & Hend).
  destruct (loop_inv_final _ _ s Hinv Hend) as [Hgivers Hreceivers].
  exists g, (dict_keys g), (totals_of g), (simplified_debt_hash s).
  split_and!; [done|by apply people_and_total_debt_eq|done|].
  intros P t Ht.
  assert (P ∈ dict_keys g) as HP.
  { rewrite <-totals_of_keys. apply dict_get_keys. by eauto. }
  rewrite dict_get_totals_of_flow in Ht by done. injection Ht as <-.
  split.
  - intros Hne.
    assert (flow (simplified_debt_hash s) P = flow g P) as Hflow.
    { destruct (Qclt_le_dec 0 (flow g P)) as [Hpos|Hle].
      - apply (Hgivers (P, flow g P)). unfold givers_of.
        apply list_elem_of_fmap. exists P. split; [done|].
        by apply list_elem_of_filter.
      - assert (flow g P < 0) as Hneg.
        { apply Qcle_lt_or_eq in Hle as [?|?]; [done|by destruct Hne]. }
        assert ((P, - flow g P) ∈ receivers_of g) as Hin.
        { unfold receivers_of. apply list_elem_of_fmap. exists P.
          split; [done|]. by apply list_elem_of_filter. }
        apply Hreceivers in Hin. simpl in Hin. rewrite Hin. ring. }
    rewrite <-Hflow. apply flow_nonzero_key. by rewrite Hflow.
  - intros Hz. apply dict_get_None. intros Hin.
    apply (inv_keys _ _ _ Hinv) in Hin.
    rewrite givers_of_names, receivers_of_names in Hin.
    destruct Hin as [[Hs _]%list_elem_of_filter|[Hs _]%list_elem_of_filter];
      rewrite Hz in Hs; by apply (irreflexivity Qclt) in Hs.
Qed.

Lemma simplified_conservation_witness :
  ∃ g people totals h,
    transaction_adjacency_graph
      (first_seen_order (all_people standard_transactions))
      standard_transactions = Ok g
    ∧ people_and_total_debt g = Ok (people, totals)
    ∧ simplify_transactions g = Some (Ok h)
    ∧ ∀ P t, dict_get P totals = Some t →
        (t ≠ 0 → ∃ r, dict_get P h = Some r ∧ sum (dict_values r) = t)
        ∧ (t = 0 → dict_get P h = None).
Proof.
  apply (simplified_conservation _ standard_transactions).
  repeat constructor; discriminate.
Defined.

(** ** C4: the greedy loop terminates and stays inside [givers] *)

(** An iteration that returns has advanced exactly one cursor, and the
    entry that cursor was on has no remaining amount. *)
Lemma loop_body_advances (s s' : loop_state) :
  loop_body s = Ok s' →
  (current_giver s' = S (current_giver s)
   ∧ current_receiver s' = current_receiver s
   ∧ snd <$> givers s' !! current_giver s = Some 0)
  ∨ (current_giver s' = current_giver s
     ∧ current_receiver s' = S (current_receiver s)
     ∧ snd <$> receivers s' !! current_receiver s = Some 0).
Proof.
  unfold loop_body, index.
  destruct (givers s !! current_giver s) as [[gn ga]|] eqn:Hg; [|done].
  destruct (receivers s !! current_receiver s) as [[rn ra]|] eqn:Hr; [|done].
  apply lookup_lt_Some in Hg, Hr. simpl.
  destruct (bool_decide (ga < ra));
    (destruct (update_adjacency_graph _ _ _ _) as [h|]; [|done]);
    simpl; intros [= <-]; simpl; [left|right];
    (split_and!; [done..|]);
    rewrite list_lookup_insert_eq by done; simpl; f_equal; ring.
Qed.

(** C4 (as amended): on the graph built from transactions with distinct
    endpoints, the loop of [simplify_transactions] ends without an exception
    after at most [len(givers) + len(receivers)] iterations; in every state
    the loop goes through, while the receiver cursor is inside [receivers]
    the giver cursor is inside [givers], and the iteration advances exactly
    one cursor and leaves no remaining amount at the entry it moves away
    from. *)
Theorem greedy_loop_terminates (order : list person) (ts : list transaction) :
  distinct_endpoints ts →
  ∃ g s0 s,
    transaction_adjacency_graph order ts = Ok g
    ∧ initial_state g = Ok s0
    ∧ while_loop (length (givers s0) + length (receivers s0)) s0 = Some (Ok s)
    ∧ simplify_transactions g = Some (Ok (simplified_debt_hash s))
    ∧ ∀ s1, loop_reaches s0 s1 →
        (current_receiver s1 < length (receivers s1))%nat →
        (current_giver s1 < length (givers s1))%nat
        ∧ ∃ s2, loop_body s1 = Ok s2
            ∧ ((current_giver s2 = S (current_giver s1)
                ∧ current_receiver s2 = current_receiver s1
                ∧ snd <$> givers s2 !! current_giver s1 = Some 0)
               ∨ (current_giver s2 = current_giver s1
                  ∧ current_receiver s2 = S (current_receiver s1)
                  ∧ snd <$> receivers s2 !! current_receiver s1 = Some 0)).
Proof.
  intros Hts.
  destruct (transaction_adjacency_graph_spec order ts Hts)
    as (g & Hg & _ & _ & _ & _ & Hnd & Htot).
  destruct (simplify_transactions_run g Hnd Htot)
    as (Hinit & s & Hloop & Hsimp & _).
  eexists g, _, s. split_and!; [done..|].
  intros s1 Hreach Hr.
  pose proof (loop_reaches_inv _ _ (names_NoDup g Hnd) _ _
                (loop_inv_initial g Hnd Htot) Hreach) as Hinv.
  destruct (loop_body_inv _ _ (names_NoDup g Hnd) s1 Hinv Hr)
    as (s2 & Hbody & _ & Hbound & _).
  split; [done|]. exists s2. split; [done|]. by apply loop_body_advances.
Qed.

Lemma greedy_loop_terminates_witness :
  ∃ g s0 s,
    transaction_adjacency_graph
      (first_seen_order (all_people standard_transactions))
      standard_transactions = Ok g
    ∧ initial_state g = Ok s0
    ∧ while_loop (length (givers s0) + length (receivers s0)) s0 = Some (Ok s)
    ∧ simplify_transactions g = Some (Ok (simplified_debt_hash s))
    ∧ ∀ s1, loop_reaches s0 s1 →
        (current_receiver s1 < length (receivers s1))%nat →
        (current_giver s1 < length (givers s1))%nat
        ∧ ∃ s2, loop_body s1 = Ok s2
            ∧ ((current_giver s2 = S (current_giver s1)
                ∧ current_receiver s2 = current_receiver s1
                ∧ snd <$> givers s2 !! current_giver s1 = Some 0)
               ∨ (current_giver s2 = current_giver s1
                  ∧ current_receiver s2 = S (current_receiver s1)
                  ∧ snd <$> receivers s2 !! current_receiver s1 = Some 0)).
Proof.
  apply (greedy_loop_terminates _ standard_transactions).
  repeat constructor; discriminate.
Defined.

(** C4 (as stated) fails on the graph of a transaction from [d] to [d]: the
    only person is a receiver, [givers] is empty, and the first iteration
    reads [givers[0]]. *)
Lemma greedy_loop_out_of_bounds :
  ∃ g s0,
    transaction_adjacency_graph ["d"] [Transaction "d" "d" (num 1)] = Ok g
    ∧ initial_state g = Ok s0
    ∧ (current_receiver s0 < length (receivers s0))%nat
    ∧ ¬ (current_giver s0 < length (givers s0))%nat
    ∧ loop_body s0 = Raise IndexError
    ∧ simplify_transactions g = Some (Raise IndexError).
Proof.
  eexists _, _. split_and!; try reflexivity; simpl; lia.
Qed.

(** ** Deciding dictionary equality, and enumerating iteration orders *)

Lemma dict_equivb_sound {V} (R : V → V → Prop) (Rb : V → V → bool)
    (d d' : dict V) :
  (∀ v v', Rb v v' = true → R v v') →
  dict_equivb Rb d d' = true → dict_equiv R d d'.
Proof.
  intros HR Hb k. unfold dict_equivb in Hb.
  rewrite forallb_forall in Hb. specialize (Hb k).
  destruct (dict_get k d) as [v|] eqn:Hv, (dict_get k d') as [v'|] eqn:Hv';
    try constructor.
  - apply HR, Hb. apply in_or_app. left.
    apply list_elem_of_In, dict_get_keys. by rewrite Hv.
  - exfalso. apply Bool.diff_false_true, Hb, in_or_app. left.
    apply list_elem_of_In, dict_get_keys. by rewrite Hv.
  - exfalso. apply Bool.diff_false_true, Hb, in_or_app. right.
    apply list_elem_of_In, dict_get_keys. by rewrite Hv'.
Qed.

Lemma graph_equivb_sound (g g' : graph) :
  graph_equivb g g' = true → graph_equiv g g'.
Proof.
  apply dict_equivb_sound. intros r r'. apply dict_equivb_sound.
  intros x y. apply bool_decide_eq_true_1.
Qed.

(** A property checked on every permutation of one iteration order holds
    for every iteration order of the set. *)
Lemma iteration_order_cases (f : list person → bool) (s base order : list person) :
  set_iteration_order s base →
  forallb f (permutations base) = true →
  set_iteration_order s order →
  f order = true.
Proof.
  intros [Hnd Hb] Hall [Hnd' Ho].
  rewrite forallb_forall in Hall. apply Hall, list_elem_of_In.
  apply permutations_Permutation, NoDup_Permutation; [done..|].
  intros x. by rewrite Hb, Ho.
Qed.

(** ** C7: the standard transactions of the test suite *)

(** The totals the test suite expects are the fractions of
    [standard_net_totals]. *)
Lemma standard_actual_total_values :
  dict_equiv eq standard_actual_total standard_net_totals.
Proof.
  apply (dict_equivb_sound _ (λ x y : number, bool_decide (x = y))).
  - intros x y. apply bool_decide_eq_true_1.
  - by vm_compute.
Qed.

Lemma standard_pipeline_all_orders :
  forallb standard_pipeline_ok
    (permutations (first_seen_order (all_people standard_transactions))) = true.
Proof. by vm_compute. Qed.

(** C7 (as amended): for the nine standard transactions, whatever the
    iteration order of the set of people, the net totals are
    Kevin = 762.5 (1525/2), Xander = -2320, John = 830, William = 727.5
    (1455/2), and the plan is Kevin pays Xander 762.5, William pays Xander
    727.5, John pays Xander 830, with the three reverse entries in Xander's
    row. *)
Theorem standard_example (order : list person) :
  set_iteration_order (all_people standard_transactions) order →
  ∃ g people totals h,
    transaction_adjacency_graph order standard_transactions = Ok g
    ∧ people_and_total_debt g = Ok (people, totals)
    ∧ simplify_transactions g = Some (Ok h)
    ∧ dict_equiv eq totals standard_net_totals
    ∧ graph_equiv h single_actual_simplified.
Proof.
  intros Ho.
  pose proof (iteration_order_cases standard_pipeline_ok _ _ order
                (first_seen_order_spec _) standard_pipeline_all_orders Ho) as Hok.
  unfold standard_pipeline_ok in Hok.
  destruct (transaction_adjacency_graph order standard_transactions)
    as [g|]; [|done].
  destruct (people_and_total_debt g) as [[people totals]|] eqn:Hp;
    destruct (simplify_transactions g) as [[h|]|] eqn:Hs; try done.
  apply andb_prop in Hok as [Htot Hplan].
  exists g, people, totals, h.
  split; [done|]. split; [done|]. split; [done|]. split.
  - apply (dict_equivb_sound _ (λ x y : number, bool_decide (x = y))); [|done].
    intros x y. apply bool_decide_eq_true_1.
  - by apply graph_equivb_sound.
Qed.

Lemma standard_example_witness :
  ∃ g people totals h,
    transaction_adjacency_graph
      (first_seen_order (all_people standard_transactions))
      standard_transactions = Ok g
    ∧ people_and_total_debt g = Ok (people, totals)
    ∧ simplify_transactions g = Some (Ok h)
    ∧ dict_equiv eq totals standard_net_totals
    ∧ graph_equiv h single_actual_simplified.
Proof.
  apply (standard_example
           (first_seen_order (all_people standard_transactions))).
  apply first_seen_order_spec.
Defined.

(** C7 (as stated) fails: the net total of Kevin is not 802.5. *)
Lemma standard_example_kevin :
  ∃ g people totals t,
    transaction_adjacency_graph
      (first_seen_order (all_people standard_transactions))
      standard_transactions = Ok g
    ∧ people_and_total_debt g = Ok (people, totals)
    ∧ dict_get "Kevin" totals = Some t
    ∧ t ≠ frac 1605 2.
Proof.
  eexists _, _, _, _. split_and!.
  - vm_compute. reflexivity.
  - vm_compute. reflexivity.
  - vm_compute. reflexivity.
  - intros H. apply (f_equal this) in H. vm_compute in H. discriminate.
Qed.

(** ** C5: a payment of amount zero *)

Lemma zero_payment_all_orders :
  forallb has_zero_payment
    (permutations (first_seen_order (all_people tie_transactions))) = true.
Proof. by vm_compute. Qed.

(** C5 (the code on a failing input): the two transactions [A owes C 10]
    and [B owes D 10] have positive amounts and distinct endpoints, and
    whatever the iteration order of the set of people, the plan returned for
    them has an entry of amount zero from a net debtor to a net creditor. *)
Theorem zero_payment_in_plan (order : list person) :
  set_iteration_order (all_people tie_transactions) order →
  distinct_endpoints tie_transactions
  ∧ Forall (λ t, 0 < amount t) tie_transactions
  ∧ ∃ g h x y,
      transaction_adjacency_graph order tie_transactions = Ok g
      ∧ simplify_transactions g = Some (Ok h)
      ∧ 0 < flow g x ∧ flow g y < 0
      ∧ edge h x y = Some 0.
Proof.
  intros Ho. split_and!.
  - repeat constructor; discriminate.
  - repeat constructor.
  - pose proof (iteration_order_cases has_zero_payment _ _ order
                  (first_seen_order_spec _) zero_payment_all_orders Ho) as Hok.
    unfold has_zero_payment in Hok.
    destruct (transaction_adjacency_graph order tie_transactions)
      as [g|]; [|done].
    destruct (simplify_transactions g) as [[h|]|] eqn:Hs; try done.
    apply existsb_exists in Hok as (x & _ & Hok).
    apply existsb_exists in Hok as (y & _ & Hok).
    apply andb_prop in Hok as [[Hx Hy]%andb_prop He].
    apply bool_decide_eq_true_1 in Hx, Hy, He.
    by exists g, h, x, y.
Qed.

Lemma zero_payment_in_plan_witness :
  distinct_endpoints tie_transactions
  ∧ Forall (λ t, 0 < amount t) tie_transactions
  ∧ ∃ g h x y,
      transaction_adjacency_graph ["A"; "B"; "C"; "D"] tie_transactions = Ok g
      ∧ simplify_transactions g = Some (Ok h)
      ∧ 0 < flow g x ∧ flow g y < 0
      ∧ edge h x y = Some 0.
Proof.
  apply (zero_payment_in_plan ["A"; "B"; "C"; "D"]).
  apply (first_seen_order_spec (all_people tie_transactions)).
Defined.

(** ** C6: equal remaining amounts *)




(** ** C9: the plan depends on the net balances only *)

(** C9: two graphs with the same result of [people_and_total_debt] (the
    same persons in the same order with the same net totals) get the same
    result from [simplify_transactions]. *)
Theorem simplify_depends_on_totals_only (g1 g2 : graph) :
  people_and_total_debt g1 = people_and_total_debt g2 →
  simplify_transactions g1 = simplify_transactions g2.
Proof.
  intros H. unfold simplify_transactions, initial_state. by rewrite H.
Qed.

Lemma simplify_depends_on_totals_only_witness :
  let g1 : graph :=
    [ ("A", [("B", num 10)]);
      ("B", [("A", num (-10)); ("C", num 10)]);
      ("C", [("B", num (-10))]) ] in
  let g2 : graph :=
    [ ("A", [("C", num 10)]); ("B", []); ("C", [("A", num (-10))]) ] in
  g1 ≠ g2
  ∧ people_and_total_debt g1 = people_and_total_debt g2
  ∧ simplify_transactions g1 = simplify_transactions g2.
Proof.
  intros g1 g2.
  assert (people_and_total_debt g1 = people_and_total_debt g2) as H
    by (vm_compute; reflexivity).
  split_and!; [discriminate|done|].
  by apply (simplify_depends_on_totals_only g1 g2).
Defined.

(** ** The iterations granted to the loop always suffice *)

Lemma loop_body_lengths (s s' : loop_state) :
  loop_body s = Ok s' →
  length (givers s') = length (givers s)
  ∧ length (receivers s') = length (receivers s)
  ∧ (current_giver s < length (givers s))%nat.
Proof.
  unfold loop_body, index.
  destruct (givers s !! current_giver s) as [[gn ga]|] eqn:Hg; [|done].
  destruct (receivers s !! current_receiver s) as [[rn ra]|] eqn:Hr; [|done].
  apply lookup_lt_Some in Hg. simpl.
  destruct (bool_decide (ga < ra));
    (destruct (update_adjacency_graph _ _ _ _) as [h|]; [|done]);
    simpl; intros [= <-]; simpl; by rewrite !length_insert.
Qed.

Lemma while_loop_fuel_enough (fuel : nat) (s : loop_state) :
  ((length (givers s) - current_giver s)
   + (length (receivers s) - current_receiver s) ≤ fuel)%nat →
  is_Some (while_loop fuel s).
Proof.
  revert s. induction fuel as [|fuel IH]; intros s Hfuel; simpl.
  - case_decide as Hr; [|by eauto].
    destruct (loop_body s) as [s'|e] eqn:Hbody.
    + apply loop_body_lengths in Hbody as (_ & _ & ?). lia.
    + unfold loop_body, index in Hbody.
      destruct (givers s !! current_giver s) as [g|] eqn:Hg.
      * apply lookup_lt_Some in Hg. lia.
      * clear Hbody. apply lookup_ge_None in Hg. lia.
  - case_decide as Hr; [|by eauto].
    destruct (loop_body s) as [s'|e] eqn:Hbody; [|by eauto].
    apply IH.
    pose proof (loop_body_lengths _ _ Hbody) as (-> & -> & ?).
    destruct (loop_body_advances _ _ Hbody) as [(-> & -> & _)|(-> & -> & _)];
      lia.
Qed.

(** The model of [simplify_transactions] never runs out of iterations: on
    every graph it returns a plan or raises an exception. *)
Lemma simplify_transactions_total (g : graph) :
  is_Some (simplify_transactions g).
Proof.
  unfold simplify_transactions.
  destruct (initial_state g) as [s0|e]; [|by eauto].
  destruct (while_loop_fuel_enough (loop_fuel s0) s0) as [[s|e] ->];
    [unfold loop_fuel; lia|by eauto..].
Qed.

(** ** The model is the generic code at the rationals *)

Lemma generic_sum_exact (l : list number) :
  Generic.sum number 0 Qcplus l = sum l.
Proof. reflexivity. Qed.

Lemma generic_update_adjacency_graph_exact (g : graph) (d p : person)
    (a : number) :
  Generic.update_adjacency_graph number Qcplus Qcminus Qcopp g d p a
  = update_adjacency_graph g d p a.
Proof. reflexivity. Qed.

Lemma generic_fill_graph_exact (g : graph) (ts : list transaction) :
  Generic.fill_graph number Qcplus Qcminus Qcopp g (exact_transaction <$> ts)
  = fill_graph g ts.
Proof.
  revert g. induction ts as [|t ts IH]; intros g; [done|].
  rewrite fmap_cons. cbn [Generic.fill_graph fill_graph].
  rewrite generic_update_adjacency_graph_exact. simpl.
  destruct (update_adjacency_graph _ _ _ _); simpl; [apply IH|done].
Qed.

Lemma generic_all_people_exact (ts : list transaction) :
  Generic.all_people (exact_transaction <$> ts) = all_people ts.
Proof.
  unfold Generic.all_people, all_people. by rewrite <-!list_fmap_compose.
Qed.

Lemma generic_transaction_adjacency_graph_exact (order : list person)
    (ts : list transaction) :
  Generic.transaction_adjacency_graph number Qcplus Qcminus Qcopp order
    (exact_transaction <$> ts)
  = transaction_adjacency_graph order ts.
Proof. apply generic_fill_graph_exact. Qed.

Lemma generic_people_and_total_debt_exact (g : graph) :
  Generic.people_and_total_debt number 0 Qcplus g = people_and_total_debt g.
Proof. reflexivity. Qed.

Lemma generic_initial_state_exact (g : graph) :
  Generic.initial_state number 0 Qcplus Qcopp Qcltb g
  = (s ← initial_state g; mret (exact_state s)).
Proof.
  unfold Generic.initial_state, initial_state.
  rewrite generic_people_and_total_debt_exact.
  destruct (people_and_total_debt g) as [[people totals]|]; [|done].
  simpl. unfold Qcltb.
  do 2 (match goal with
        | |- context [comprehension ?e ?c ?l] => destruct (comprehension e c l)
        end);
    reflexivity.
Qed.

Lemma generic_loop_body_exact (s : loop_state) :
  Generic.loop_body number Qcplus Qcminus Qcopp Qcltb (exact_state s)
  = (s' ← loop_body s; mret (exact_state s')).
Proof.
  unfold Generic.loop_body, loop_body. simpl.
  destruct (index (givers s) _) as [g|]; [|done]. simpl.
  destruct (index (receivers s) _) as [r|]; [|done]. simpl.
  unfold Qcltb.
  destruct (bool_decide _); rewrite generic_update_adjacency_graph_exact;
    by destruct (update_adjacency_graph _ _ _ _).
Qed.

Lemma generic_while_loop_exact (fuel : nat) (s : loop_state) :
  Generic.while_loop number Qcplus Qcminus Qcopp Qcltb fuel (exact_state s)
  = match while_loop fuel s with
    | Some (Ok s') => Some (Ok (exact_state s'))
    | Some (Raise e) => Some (Raise e)
    | None => None
    end.
Proof.
  revert s. induction fuel as [|fuel IH]; intros s; simpl.
  - by destruct (decide _).
  - destruct (decide _); [|done]. rewrite generic_loop_body_exact.
    destruct (loop_body s); simpl; [apply IH|done].
Qed.

(** The simplifier of the model is the generic simplifier at the
    rationals. *)
Lemma generic_simplify_transactions_exact (g : graph) :
  Generic.simplify_transactions number 0 Qcplus Qcminus Qcopp Qcltb g
  = simplify_transactions g.
Proof.
  unfold Generic.simplify_transactions, simplify_transactions.
  rewrite generic_initial_state_exact.
  destruct (initial_state g) as [s0|]; [|done]. simpl.
  change (Generic.loop_fuel (exact_state s0)) with (loop_fuel s0).
  rewrite generic_while_loop_exact.
  by destruct (while_loop _ s0) as [[s|]|].
Qed.

(** ** Rounding: the code on binary64 amounts *)

Lemma float_totals_all_orders :
  forallb Float64.totals_do_not_cancel
    (permutations
       (first_seen_order (Generic.all_people Float64.three_debts))) = true.
Proof. by vm_compute. Qed.

Lemma float_simplifier_all_orders :
  forallb Float64.leaves_givers
    (permutations
       (first_seen_order (Generic.all_people Float64.two_debtors))) = true.
Proof. by vm_compute. Qed.

Lemma float_builder_all_orders :
  forallb (λ order,
      forallb (Float64.order_of_debts_shows order)
        (permutations
           (first_seen_order
              (Generic.all_people (reverse Float64.repeated_debt)))))
    (permutations
       (first_seen_order (Generic.all_people Float64.repeated_debt))) = true.
Proof. by vm_compute. Qed.

(** On [three_debts] the totals do not sum to zero, in whichever order the
    set of people is iterated. *)
Lemma float_totals_do_not_cancel (order : list person) :
  set_iteration_order (Generic.all_people Float64.three_debts) order →
  ∃ g people totals,
    Float64.transaction_adjacency_graph order Float64.three_debts = Ok g
    ∧ Float64.people_and_total_debt g = Ok (people, totals)
    ∧ Float64.equal (Float64.sum (dict_values totals)) Float64.zero = false.
Proof.
  intros Ho.
  pose proof (iteration_order_cases Float64.totals_do_not_cancel _ _ order
                (first_seen_order_spec _) float_totals_all_orders Ho) as Hok.
  unfold Float64.totals_do_not_cancel in Hok.
  destruct (Float64.transaction_adjacency_graph order Float64.three_debts)
    as [g|] eqn:Hg; [|done].
  destruct (Float64.people_and_total_debt g) as [[people totals]|] eqn:Ht;
    [|done].
  exists g, people, totals. split_and!; [done..|].
  by apply negb_true_iff.
Qed.

(** On the graph of [two_debtors] the receiver is left with a positive
    remainder after the last giver, and the simplifier reads [givers[2]]. *)
Lemma float_simplifier_leaves_givers (order : list person) :
  set_iteration_order (Generic.all_people Float64.two_debtors) order →
  ∃ g,
    Float64.transaction_adjacency_graph order Float64.two_debtors = Ok g
    ∧ Float64.simplify_transactions g = Some (Raise IndexError).
Proof.
  intros Ho.
  pose proof (iteration_order_cases Float64.leaves_givers _ _ order
                (first_seen_order_spec _) float_simplifier_all_orders Ho)
    as Hok.
  unfold Float64.leaves_givers in Hok.
  destruct (Float64.transaction_adjacency_graph order Float64.two_debtors)
    as [g|] eqn:Hg; [|done].
  exists g. split; [done|].
  by destruct (Float64.simplify_transactions g) as [[?|[]]|].
Qed.

(** [0.1 + 0.2 + 0.3] and [0.3 + 0.2 + 0.1] are two different floats. *)
Lemma float_builder_order_shows (order order' : list person) :
  set_iteration_order (Generic.all_people Float64.repeated_debt) order →
  set_iteration_order
    (Generic.all_people (reverse Float64.repeated_debt)) order' →
  ∃ g g' x y,
    Float64.transaction_adjacency_graph order Float64.repeated_debt = Ok g
    ∧ Float64.transaction_adjacency_graph order'
        (reverse Float64.repeated_debt) = Ok g'
    ∧ Generic.edge g "A" "B" = Some x
    ∧ Generic.edge g' "A" "B" = Some y
    ∧ Float64.equal x y = false.
Proof.
  intros Ho Ho'.
  pose proof (iteration_order_cases _ _ _ order
                (first_seen_order_spec _) float_builder_all_orders Ho) as Hok.
  pose proof (iteration_order_cases _ _ _ order'
                (first_seen_order_spec _) Hok Ho') as Hok'.
  unfold Float64.order_of_debts_shows in Hok'.
  destruct (Float64.transaction_adjacency_graph order Float64.repeated_debt)
    as [g|] eqn:Hg; [|done].
  destruct (Float64.transaction_adjacency_graph order'
              (reverse Float64.repeated_debt)) as [g'|] eqn:Hg'; [|done].
  destruct (Generic.edge g "A" "B") as [x|] eqn:Hx; [|done].
  destruct (Generic.edge g' "A" "B") as [y|] eqn:Hy; [|done].
  exists g, g', x, y. split_and!; [done..|].
  by apply negb_true_iff.
Qed.

Lemma float_inputs_valid :
  Float64.valid Float64.three_debts
  ∧ Float64.valid Float64.two_debtors
  ∧ Float64.valid Float64.repeated_debt.
Proof. split_and!; repeat constructor; discriminate. Qed.

(** C1 (as stated) fails twice.  One transaction from [d] to [d] itself
    leaves the single net total [-1]; and for the binary64 amounts of
    [A owes B 0.1, A owes C 0.7, B owes C 0.3] (positive, between distinct
    persons) the totals do not sum to zero, in whichever order the set of
    people is iterated. *)
Lemma conservation_fails :
  (∃ g people totals,
      set_iteration_order (all_people [Transaction "d" "d" 1]) ["d"]
      ∧ transaction_adjacency_graph ["d"] [Transaction "d" "d" 1] = Ok g
      ∧ people_and_total_debt g = Ok (people, totals)
      ∧ sum (dict_values totals) ≠ 0)
  ∧ (Float64.valid Float64.three_debts
     ∧ ∀ order,
         set_iteration_order (Generic.all_people Float64.three_debts) order →
         ∃ g people totals,
           Float64.transaction_adjacency_graph order Float64.three_debts
           = Ok g
           ∧ Float64.people_and_total_debt g = Ok (people, totals)
           ∧ Float64.equal (Float64.sum (dict_values totals)) Float64.zero
             = false).
Proof.
  split.
  - eexists _, _, _. split_and!.
    + split; [apply NoDup_singleton|]. intros x. unfold all_people. simpl.
      rewrite !elem_of_cons, !elem_of_nil. tauto.
    + reflexivity.
    + reflexivity.
    + intros H. apply (f_equal this) in H. vm_compute in H. discriminate.
  - split; [apply float_inputs_valid|]. apply float_totals_do_not_cancel.
Qed.

(** C2 (as stated) fails three times.  A person whose net total is zero is
    not a key of the plan, so that [simplified[P]] raises [KeyError]; on
    the graph of a transaction from [d] to [d] the simplifier raises
    [IndexError]; and for the binary64 amounts of
    [B owes A 0.1, C owes A 0.2] (positive, between distinct persons) the
    simplifier raises [IndexError], in whichever order the set of people
    is iterated. *)
Lemma simplified_conservation_fails :
  (∃ g people totals h,
      transaction_adjacency_graph ["A"; "B"]
        [Transaction "A" "B" (num 10); Transaction "B" "A" (num 10)] = Ok g
      ∧ people_and_total_debt g = Ok (people, totals)
      ∧ simplify_transactions g = Some (Ok h)
      ∧ dict_get "A" totals = Some (num 0)
      ∧ getitem h "A" = Raise KeyError)
  ∧ (∃ g,
      transaction_adjacency_graph ["d"] [Transaction "d" "d" (num 1)] = Ok g
      ∧ simplify_transactions g = Some (Raise IndexError))
  ∧ (Float64.valid Float64.two_debtors
     ∧ ∀ order,
         set_iteration_order (Generic.all_people Float64.two_debtors) order →
         ∃ g,
           Float64.transaction_adjacency_graph order Float64.two_debtors
           = Ok g
           ∧ Float64.simplify_transactions g = Some (Raise IndexError)).
Proof.
  split_and!.
  - eexists _, _, _, _. split_and!; reflexivity.
  - eexists. split; reflexivity.
  - apply float_inputs_valid.
  - apply float_simplifier_leaves_givers.
Qed.

(** C8 (as stated) fails: for the binary64 amounts of
    [A owes B 0.1, A owes B 0.2, A owes B 0.3] (positive, between distinct
    persons) and the same three transactions in the reverse order, the two
    graphs have different entries [graph["A"]["B"]], in whichever orders the
    two sets of people are iterated. *)
Lemma builder_order_shows_in_floats :
  Float64.valid Float64.repeated_debt
  ∧ Float64.repeated_debt ≡ₚ reverse Float64.repeated_debt
  ∧ ∀ order order',
      set_iteration_order (Generic.all_people Float64.repeated_debt) order →
      set_iteration_order
        (Generic.all_people (reverse Float64.repeated_debt)) order' →
      ∃ g g' x y,
        Float64.transaction_adjacency_graph order Float64.repeated_debt
        = Ok g
        ∧ Float64.transaction_adjacency_graph order'
            (reverse Float64.repeated_debt) = Ok g'
        ∧ Generic.edge g "A" "B" = Some x
        ∧ Generic.edge g' "A" "B" = Some y
        ∧ Float64.equal x y = false.
Proof.
  split_and!.
  - apply float_inputs_valid.
  - symmetry. apply reverse_Permutation.
  - apply float_builder_order_shows.
Qed.

(** * Further properties of the code *)

(** ** [update_adjacency_graph] on an arbitrary graph *)

Lemma dict_get_ensure_both (g : graph) (d p x : person) :
  dict_get x (ensure_key p (ensure_key d g))
  = if decide (x = d ∨ x = p) then Some (row g x) else dict_get x g.
Proof.
  rewrite !dict_get_ensure, row_ensure.
  destruct (decide (x = p)) as [Hp|Hp], (decide (x = d)) as [Hd|Hd].
  - subst. rewrite decide_True; auto.
  - subst. rewrite decide_True; auto.
  - subst. rewrite decide_True; auto.
  - rewrite decide_False; [done|]. by intros [?|?].
Qed.

(** The three ways a call can go: the forward entry is absent and both
    entries are written; both entries are present and both are updated; the
    forward entry is present without the reverse one and the assertion
    fails. *)
Lemma update_adjacency_graph_cases (g : graph) (d p : person) (a : number) :
  match dict_get p (row g d) with
  | None =>
      update_adjacency_graph g d p a
      = Ok (dict_set p
              (dict_set d (- a)
                 (if decide (p = d) then dict_set p a (row g d) else row g p))
              (dict_set d (dict_set p a (row g d))
                 (ensure_key p (ensure_key d g))))
  | Some v =>
      match dict_get d (row g p) with
      | None => update_adjacency_graph g d p a = Raise AssertionError
      | Some v' =>
          update_adjacency_graph g d p a
          = Ok (dict_set p
                  (dict_set d ((if decide (p = d) then v + a else v') - a)
                     (if decide (p = d) then dict_set p (v + a) (row g d)
                      else row g p))
                  (dict_set d (dict_set p (v + a) (row g d))
                     (ensure_key p (ensure_key d g))))
      end
  end.
Proof.
  unfold update_adjacency_graph.
  set (g0 := ensure_key p (ensure_key d g)).
  assert (dict_get d g0 = Some (row g d)) as Hd.
  { unfold g0. rewrite dict_get_ensure_both, decide_True; auto. }
  assert (dict_get p g0 = Some (row g p)) as Hp.
  { unfold g0. rewrite dict_get_ensure_both, decide_True; auto. }
  rewrite (getitem_Some _ _ _ Hd). simpl.
  destruct (dict_get p (row g d)) as [v|] eqn:Hv.
  - assert (dict_mem p (row g d) = true) as ->
      by (unfold dict_mem; by rewrite Hv).
    rewrite (getitem_Some _ _ _ Hp). simpl.
    destruct (dict_get d (row g p)) as [v'|] eqn:Hv'.
    2:{ assert (dict_mem d (row g p) = false) as ->
          by (unfold dict_mem; by rewrite Hv').
        done. }
    assert (dict_mem d (row g p) = true) as ->
      by (unfold dict_mem; by rewrite Hv').
    rewrite (getitem_Some _ _ _ Hv). simpl.
    destruct (decide (p = d)) as [->|Hne].
    + rewrite (getitem_Some _ d (dict_set d (v + a) (row g d)))
        by apply dict_get_set_eq.
      simpl. by rewrite (getitem_Some _ d (v + a)) by apply dict_get_set_eq.
    + rewrite (getitem_Some _ p (row g p))
        by (by rewrite dict_get_set_ne by done).
      simpl. by rewrite (getitem_Some _ _ _ Hv').
  - assert (dict_mem p (row g d) = false) as ->
      by (unfold dict_mem; by rewrite Hv).
    destruct (decide (p = d)) as [->|Hne].
    + by rewrite (getitem_Some _ d (dict_set d a (row g d)))
        by apply dict_get_set_eq.
    + by rewrite (getitem_Some _ p (row g p))
        by (by rewrite dict_get_set_ne by done).
Qed.

(** X1: [update_adjacency_graph] raises an exception exactly when
    [pay_to] is a key of [graph[debtor]] while [debtor] is not a key of
    [graph[pay_to]], and the exception is then the [AssertionError]; in
    every other case it returns a graph ([KeyError] is never raised, also
    when both persons are new or are the same person). *)
Theorem update_adjacency_graph_raises_iff (g : graph) (d p : person)
    (a : number) :
  match update_adjacency_graph g d p a with
  | Ok _ => ¬ (is_Some (edge g d p) ∧ edge g p d = None)
  | Raise e => e = AssertionError ∧ is_Some (edge g d p) ∧ edge g p d = None
  end.
Proof.
  pose proof (update_adjacency_graph_cases g d p a) as Hc.
  rewrite !edge_row.
  destruct (dict_get p (row g d)) as [v|] eqn:Hv.
  - destruct (dict_get d (row g p)) as [v'|] eqn:Hv'; rewrite Hc.
    + by intros [_ ?].
    + by eauto.
  - rewrite Hc. by intros [[? ?] _].
Qed.

Lemma ensure_key_prefix (g : graph) (k : person) :
  dict_keys g `prefix_of` dict_keys (ensure_key k g).
Proof.
  unfold ensure_key. destruct (dict_mem k g) eqn:Hk; [done|].
  apply dict_mem_false in Hk. rewrite dict_set_fresh by done.
  unfold dict_keys. rewrite fmap_app. by apply prefix_app_r.
Qed.

(** Every successful call leaves a graph of one shape: the rows of the two
    persons with one entry written in each. *)
Lemma written_graph_facts (g : graph) (d p : person) (c1 c2 : number) :
  let g' :=
    dict_set p
      (dict_set d c1
         (if decide (p = d) then dict_set p c2 (row g d) else row g p))
      (dict_set d (dict_set p c2 (row g d))
         (ensure_key p (ensure_key d g))) in
  dict_keys g `prefix_of` dict_keys g'
  ∧ (∀ x, x ∈ dict_keys g' ↔ x = d ∨ x = p ∨ x ∈ dict_keys g)
  ∧ (∀ x y, ¬ (x = d ∧ y = p) → ¬ (x = p ∧ y = d) →
       edge g' x y = edge g x y)
  ∧ edge g' p d = Some c1
  ∧ (d ≠ p → edge g' d p = Some c2).
Proof.
  intros g'.
  assert (∀ x, dict_get x g'
    = if decide (x = p)
      then Some (dict_set d c1
                   (if decide (p = d) then dict_set p c2 (row g d)
                    else row g p))
      else if decide (x = d) then Some (dict_set p c2 (row g d))
      else dict_get x g) as Hget.
  { intros x. unfold g'. rewrite !dict_get_set.
    repeat case_decide; try done.
    rewrite dict_get_ensure_both, decide_False; [done|]. by intros [?|?]. }
  split_and!.
  - unfold g'. rewrite dict_set_keys_present.
    + rewrite dict_set_keys_present; [etrans; apply ensure_key_prefix|].
      rewrite dict_get_ensure_both, decide_True; by eauto.
    + rewrite dict_get_set. case_decide; [by eauto|].
      rewrite dict_get_ensure_both, decide_True; by eauto.
  - intros x. unfold g'. rewrite !dict_keys_set, !keys_ensure. tauto.
  - intros x y Hxy Hyx. unfold edge at 1. rewrite Hget, !edge_row.
    destruct (decide (x = p)) as [->|Hxp]; simpl.
    + rewrite dict_get_set_ne by (intros ->; by apply Hyx).
      destruct (decide (p = d)) as [->|Hpd]; [|done].
      rewrite dict_get_set_ne; [done|]. intros ->. by apply Hxy.
    + destruct (decide (x = d)) as [->|Hxd]; simpl; [|by rewrite <-edge_row].
      rewrite dict_get_set_ne; [done|]. intros ->. by apply Hxy.
  - unfold edge. rewrite Hget, decide_True by done. simpl.
    apply dict_get_set_eq.
  - intros Hne. unfold edge.
    rewrite Hget, decide_False, decide_True by done. simpl.
    apply dict_get_set_eq.
Qed.

(** X2: a call that returns touches one pair only.  The keys of the graph
    keep their order and the two persons are added after them when they are
    new, and every entry [graph[x][y]] other than the two entries of the
    pair is as before the call. *)
Theorem update_adjacency_graph_frame (g g' : graph) (d p : person)
    (a : number) :
  update_adjacency_graph g d p a = Ok g' →
  dict_keys g `prefix_of` dict_keys g'
  ∧ (∀ x, x ∈ dict_keys g' ↔ x = d ∨ x = p ∨ x ∈ dict_keys g)
  ∧ (∀ x y, ¬ (x = d ∧ y = p) → ¬ (x = p ∧ y = d) →
       edge g' x y = edge g x y).
Proof.
  intros Hup. pose proof (update_adjacency_graph_cases g d p a) as Hc.
  destruct (dict_get p (row g d)) as [v|].
  - destruct (dict_get d (row g p)) as [v'|]; [|congruence].
    rewrite Hup in Hc. injection Hc as ->.
    by destruct (written_graph_facts g d p
                   ((if decide (p = d) then v + a else v') - a) (v + a))
      as (? & ? & ? & _).
  - rewrite Hup in Hc. injection Hc as ->.
    by destruct (written_graph_facts g d p (- a) a) as (? & ? & ? & _).
Qed.

Lemma update_adjacency_graph_frame_witness :
  ∃ g',
    update_adjacency_graph [("A", [("B", num 5)]); ("B", [("A", num (-5))])]
      "C" "A" (num 3) = Ok g'
    ∧ dict_keys g' = ["A"; "B"; "C"]
    ∧ edge g' "A" "B" = Some (num 5).
Proof.
  eexists. split; [reflexivity|].
  destruct (update_adjacency_graph_frame
              [("A", [("B", num 5)]); ("B", [("A", num (-5))])] _
              "C" "A" (num 3) eq_refl) as (_ & _ & Hframe).
  split; [reflexivity|]. by rewrite Hframe by (by intros [? ?]).
Defined.

(** X3: the two entries a returning call writes.  When [graph[d][p]] was
    absent, the call sets [graph[p][d] = -a] (replacing an earlier value of
    that entry, if there was one) and, for two distinct persons,
    [graph[d][p] = a]; when both entries were present, it adds [a] to the
    first and subtracts [a] from the second; for one and the same person
    with the entry present, both statements hit the one entry, which
    becomes [(v + a) - a]. *)
Theorem update_adjacency_graph_writes (g g' : graph) (d p : person)
    (a : number) :
  update_adjacency_graph g d p a = Ok g' →
  (edge g d p = None →
     edge g' p d = Some (- a) ∧ (d ≠ p → edge g' d p = Some a))
  ∧ (∀ v v', d ≠ p → edge g d p = Some v → edge g p d = Some v' →
       edge g' d p = Some (v + a) ∧ edge g' p d = Some (v' - a))
  ∧ (∀ v, d = p → edge g d d = Some v → edge g' d d = Some (v + a - a)).
Proof.
  intros Hup. pose proof (update_adjacency_graph_cases g d p a) as Hc.
  rewrite !(edge_row g).
  destruct (dict_get p (row g d)) as [v|] eqn:Hv.
  - destruct (dict_get d (row g p)) as [w|] eqn:Hw; [|congruence].
    rewrite Hup in Hc. injection Hc as Hg'.
    pose proof (written_graph_facts g d p
                  ((if decide (p = d) then v + a else w) - a) (v + a)) as Hf.
    cbv zeta in Hf. rewrite <-Hg' in Hf.
    destruct Hf as (_ & _ & _ & Hpd & Hdp).
    split_and!; [done| |].
    + intros ? ? Hne [= <-] [= <-].
      rewrite Hpd, decide_False by done. by split; [apply Hdp|].
    + intros v0 -> Hv0. rewrite Hv in Hv0. injection Hv0 as <-.
      by rewrite Hpd, decide_True.
  - rewrite Hup in Hc. injection Hc as Hg'.
    pose proof (written_graph_facts g d p (- a) a) as Hf.
    cbv zeta in Hf. rewrite <-Hg' in Hf.
    destruct Hf as (_ & _ & _ & Hpd & Hdp).
    split_and!; [done| |].
    + by intros.
    + intros v0 -> Hv0. congruence.
Qed.

Lemma update_adjacency_graph_writes_witness :
  ∃ g',
    update_adjacency_graph [("A", [("B", num 5)]); ("B", [("A", num (-5))])]
      "A" "B" (num 3) = Ok g'
    ∧ edge g' "A" "B" = Some (num 5 + num 3)
    ∧ edge g' "B" "A" = Some (num (-5) - num 3).
Proof.
  eexists. split; [reflexivity|].
  destruct (update_adjacency_graph_writes
              [("A", [("B", num 5)]); ("B", [("A", num (-5))])] _
              "A" "B" (num 3) eq_refl) as (_ & Hw & _).
  by apply Hw.
Defined.

(** ** The builder on an arbitrary list of transactions *)

Lemma update_adjacency_graph_shape (g g' : graph) (d p : person) (a : number) :
  update_adjacency_graph g d p a = Ok g' →
  ∃ c1 c2,
    g' = dict_set p
           (dict_set d c1
              (if decide (p = d) then dict_set p c2 (row g d) else row g p))
           (dict_set d (dict_set p c2 (row g d))
              (ensure_key p (ensure_key d g))).
Proof.
  intros Hup. pose proof (update_adjacency_graph_cases g d p a) as Hc.
  destruct (dict_get p (row g d)) as [v|].
  - destruct (dict_get d (row g p)) as [w|]; [|congruence].
    rewrite Hup in Hc. injection Hc as ->. by eexists _, _.
  - rewrite Hup in Hc. injection Hc as ->. by eexists _, _.
Qed.

Lemma update_adjacency_graph_keys (g g' : graph) (d p : person) (a : number) :
  update_adjacency_graph g d p a = Ok g' →
  dict_keys g' = dict_keys (ensure_key p (ensure_key d g)).
Proof.
  intros (c1 & c2 & ->)%update_adjacency_graph_shape.
  rewrite dict_set_keys_present.
  - rewrite dict_set_keys_present; [done|].
    rewrite dict_get_ensure_both, decide_True; by eauto.
  - rewrite dict_get_set. case_decide; [by eauto|].
    rewrite dict_get_ensure_both, decide_True; by eauto.
Qed.

Lemma ensure_key_present (g : graph) (k : person) :
  k ∈ dict_keys g → ensure_key k g = g.
Proof.
  intros Hk%dict_get_keys%dict_mem_true. unfold ensure_key. by rewrite Hk.
Qed.

(** With every edge present in both directions the assertion holds, for
    two distinct persons and for one and the same person alike, and the
    edges of the result are again present in both directions. *)
Lemma update_adjacency_graph_mutually_present (g : graph) (d p : person)
    (a : number) :
  mutually_present g →
  ∃ g', update_adjacency_graph g d p a = Ok g' ∧ mutually_present g'.
Proof.
  intros Hm.
  assert (∃ g', update_adjacency_graph g d p a = Ok g') as [g' Hup].
  { pose proof (update_adjacency_graph_cases g d p a) as Hc.
    destruct (dict_get p (row g d)) as [v|] eqn:Hv; [|by eauto].
    destruct (dict_get d (row g p)) as [w|] eqn:Hw; [by eauto|].
    assert (is_Some (edge g p d)) as [? Hs].
    { apply Hm. rewrite edge_row, Hv. by eauto. }
    rewrite edge_row in Hs. congruence. }
  exists g'. split; [done|].
  destruct (update_adjacency_graph_shape _ _ _ _ _ Hup) as (c1 & c2 & Hg').
  pose proof (written_graph_facts g d p c1 c2) as Hf. cbv zeta in Hf.
  rewrite <-Hg' in Hf. destruct Hf as (_ & _ & Hframe & Hpd & Hdp).
  assert (is_Some (edge g' d p)) as Hdp'.
  { destruct (decide (d = p)) as [->|Hne]; [by eauto|].
    rewrite Hdp by done. by eauto. }
  intros x y.
  destruct (decide (x = d ∧ y = p)) as [[-> ->]|Hxy].
  { split; intros _; [by eauto|done]. }
  destruct (decide (x = p ∧ y = d)) as [[-> ->]|Hyx].
  { split; intros _; [done|by eauto]. }
  rewrite (Hframe x y), (Hframe y x); [apply Hm|tauto..].
Qed.

Lemma fill_graph_any (ts : list transaction) (g : graph) :
  mutually_present g →
  ∃ g', fill_graph g ts = Ok g'
    ∧ mutually_present g'
    ∧ (∀ x, x ∈ dict_keys g' ↔ x ∈ dict_keys g ∨ x ∈ all_people ts)
    ∧ (NoDup (dict_keys g) → NoDup (dict_keys g'))
    ∧ ((∀ x, x ∈ all_people ts → x ∈ dict_keys g) →
       dict_keys g' = dict_keys g).
Proof.
  revert g. induction ts as [|t ts IH]; intros g Hm; simpl.
  - exists g. split_and!; try done.
    intros x. unfold all_people. simpl. rewrite elem_of_nil. tauto.
  - destruct (update_adjacency_graph_mutually_present g
                (debtor t) (pay_to t) (amount t) Hm) as (g1 & Hup & Hm1).
    rewrite Hup. simpl.
    destruct (IH g1 Hm1) as (g' & Hfill & Hm' & Hkeys & Hnd & Hsame).
    pose proof (update_adjacency_graph_keys _ _ _ _ _ Hup) as Hk1.
    assert (∀ x, x ∈ all_people (t :: ts)
                 ↔ x = debtor t ∨ x = pay_to t ∨ x ∈ all_people ts) as Hall.
    { intros x. unfold all_people.
      rewrite !elem_of_app, !fmap_cons, !elem_of_cons. tauto. }
    exists g'. split_and!; try done.
    + intros x. rewrite Hkeys, Hk1, !keys_ensure, Hall. tauto.
    + intros ?. apply Hnd. rewrite Hk1. by do 2 apply NoDup_ensure.
    + intros Hin. rewrite Hsame.
      * rewrite Hk1, (ensure_key_present g (debtor t)),
          (ensure_key_present g (pay_to t)); [done|..];
          apply Hin, Hall; auto.
      * intros x Hx. rewrite Hk1, !keys_ensure.
        right; right. apply Hin, Hall. auto.
Qed.

(** X4: [transaction_adjacency_graph] never raises: for every list of
    transactions, also with a person owing to the same person, the
    assertion of every update holds and a graph is returned; every edge of
    it is present in both directions, and its keys are distinct. *)
Theorem transaction_adjacency_graph_never_raises (order : list person)
    (ts : list transaction) :
  ∃ g, transaction_adjacency_graph order ts = Ok g
    ∧ mutually_present g
    ∧ NoDup (dict_keys g)
    ∧ ∀ x, x ∈ dict_keys g ↔ x ∈ order ∨ x ∈ all_people ts.
Proof.
  unfold transaction_adjacency_graph.
  destruct (fill_graph_any ts _ (initial_mutually_present order))
    as (g & Hfill & Hm & Hkeys & Hnd & _).
  exists g. split_and!; [done..|by apply Hnd, initial_NoDup|].
  intros x. by rewrite Hkeys, initial_keys.
Qed.

(** X5: the keys of the graph are the people of the transactions, in the
    order in which the set of people was iterated: the updates add no key
    (the two [not in] tests of [update_adjacency_graph] never succeed in
    calls from the builder).  In particular the graph of no transaction is
    empty. *)
Theorem transaction_adjacency_graph_keys (order : list person)
    (ts : list transaction) (g : graph) :
  set_iteration_order (all_people ts) order →
  transaction_adjacency_graph order ts = Ok g →
  dict_keys g = order.
Proof.
  intros [Hnd Ho] Hg. unfold transaction_adjacency_graph in Hg.
  destruct (fill_graph_any ts _ (initial_mutually_present order))
    as (g' & Hfill & _ & _ & _ & Hsame).
  assert (g' = g) as -> by congruence.
  rewrite Hsame.
  - unfold initial_graph. rewrite dict_of_list_NoDup.
    + unfold dict_keys. rewrite <-list_fmap_compose. apply list_fmap_id.
    + rewrite <-list_fmap_compose. by rewrite list_fmap_id.
  - intros x Hx. by apply initial_keys, Ho.
Qed.

Lemma transaction_adjacency_graph_keys_witness :
  ∃ g,
    transaction_adjacency_graph ["Xander"; "John"; "Kevin"]
      dup_pair_transactions = Ok g
    ∧ dict_keys g = ["Xander"; "John"; "Kevin"].
Proof.
  eexists. split; [vm_compute; reflexivity|].
  apply (transaction_adjacency_graph_keys _ dup_pair_transactions).
  - split.
    + apply (bool_decide_unpack _). by vm_compute.
    + intros x. unfold all_people. simpl.
      rewrite !elem_of_cons, !elem_of_nil. tauto.
  - vm_compute. reflexivity.
Defined.

(** ** The graph of transactions between distinct persons *)

Lemma foldl_edge_step_self (ts : list transaction) (x : person) :
  distinct_endpoints ts →
  foldl (λ e t, edge_step t x x e) None ts = None.
Proof.
  induction 1 as [|t ts Ht _ IH]; simpl; [done|].
  assert (edge_step t x x None = None) as Hstep.
  { unfold edge_step.
    repeat case_decide; try done; exfalso; destruct_and!; apply Ht;
      congruence. }
  by rewrite Hstep.
Qed.

(** X6: the graph built from transactions between distinct persons is
    antisymmetric ([graph[x][y] == -graph[y][x]] for every entry), has no
    entry from a person to the same person, and every key of a row is a key
    of the graph. *)
Theorem transaction_adjacency_graph_antisymmetric (order : list person)
    (ts : list transaction) :
  distinct_endpoints ts →
  ∃ g, transaction_adjacency_graph order ts = Ok g
    ∧ antisymmetric g
    ∧ (∀ x, edge g x x = None)
    ∧ (∀ x y, is_Some (edge g x y) → y ∈ dict_keys g).
Proof.
  intros Hts.
  destruct (transaction_adjacency_graph_spec order ts Hts)
    as (g & Hg & Hm & Hanti & Hedge & _).
  exists g. split_and!; [done..| |].
  - intros x. rewrite Hedge. by apply foldl_edge_step_self.
  - intros x y Hxy. apply Hm in Hxy as [v Hv]. apply dict_get_keys.
    unfold edge in Hv. destruct (dict_get y g); [by eauto|done].
Qed.

Lemma transaction_adjacency_graph_antisymmetric_witness :
  ∃ g,
    transaction_adjacency_graph
      (first_seen_order (all_people dup_pair_transactions))
      dup_pair_transactions = Ok g
    ∧ antisymmetric g
    ∧ (∀ x, edge g x x = None)
    ∧ (∀ x y, is_Some (edge g x y) → y ∈ dict_keys g).
Proof.
  apply (transaction_adjacency_graph_antisymmetric _ dup_pair_transactions).
  repeat constructor; discriminate.
Defined.

Lemma owes_cons (t : transaction) (ts : list transaction) (x y : person) :
  owes (t :: ts) x y
  = (if decide (debtor t = x ∧ pay_to t = y) then amount t else 0)
    + owes ts x y.
Proof.
  unfold owes. rewrite filter_cons.
  case_decide; [by rewrite fmap_cons, sum_cons|ring].
Qed.

Lemma owes_unlinked (ts : list transaction) (x y : person) :
  ¬ Exists (λ t, links t x y) ts → owes ts x y = 0 ∧ owes ts y x = 0.
Proof.
  induction ts as [|t ts IH]; intros Hex; [done|].
  rewrite !owes_cons.
  destruct IH as [-> ->]; [intros ?; apply Hex; by right|].
  rewrite !decide_False; [split; ring|..];
    intros [? ?]; apply Hex; left; [right|left]; done.
Qed.

Lemma foldl_edge_step_closed (ts : list transaction) (x y : person) :
  distinct_endpoints ts →
  ∀ e, foldl (λ e t, edge_step t x y e) e ts
     = if decide (Exists (λ t, links t x y) ts)
       then Some (default 0 e + owes ts x y - owes ts y x)
       else e.
Proof.
  induction 1 as [|t ts Ht _ IH]; intros e; cbn [foldl].
  - rewrite decide_False by by intros ?%Exists_nil. done.
  - rewrite IH, !owes_cons. unfold edge_step.
    destruct (decide (x = debtor t ∧ y = pay_to t)) as [[-> ->]|Hxy].
    + rewrite (decide_True (P:=Exists _ (t :: ts)))
        by (left; left; done).
      rewrite (decide_True (P:=debtor t = debtor t ∧ _)) by done.
      rewrite (decide_False (P:=debtor t = pay_to t ∧ _))
        by (by intros [? ?]).
      case_decide as Hex; simpl; f_equal; [ring|].
      destruct (owes_unlinked _ _ _ Hex) as [-> ->]. ring.
    + destruct (decide (x = pay_to t ∧ y = debtor t)) as [[-> ->]|Hyx].
      * rewrite (decide_True (P:=Exists _ (t :: ts)))
          by (left; right; done).
        rewrite (decide_False (P:=debtor t = pay_to t ∧ _))
          by (by intros [? ?]).
        rewrite (decide_True (P:=debtor t = debtor t ∧ _)) by done.
        case_decide as Hex; simpl; f_equal; [ring|].
        destruct (owes_unlinked _ _ _ Hex) as [-> ->]. ring.
      * rewrite (decide_False (P:=debtor t = x ∧ _))
          by (intros [? ?]; by apply Hxy).
        rewrite (decide_False (P:=debtor t = y ∧ _))
          by (intros [? ?]; by apply Hyx).
        assert (¬ links t x y) as Hl.
        { intros [[? ?]|[? ?]]; [by apply Hxy|by apply Hyx]. }
        destruct (decide (Exists (λ t, links t x y) ts)) as [Hex|Hex].
        -- rewrite decide_True by by right. f_equal. ring.
        -- rewrite decide_False; [done|].
           by intros [?|?]%Exists_cons.
Qed.

(** X7: the entries of the graph are net pairwise balances.  For
    transactions between distinct persons, [graph[x][y]] is present exactly
    when some transaction is between [x] and [y] (in either direction), and
    it is then the sum of the amounts [x] owes [y] minus the sum of the
    amounts [y] owes [x]. *)
Theorem transaction_adjacency_graph_edge (order : list person)
    (ts : list transaction) (g : graph) (x y : person) :
  distinct_endpoints ts →
  transaction_adjacency_graph order ts = Ok g →
  edge g x y
  = if decide (Exists (λ t, links t x y) ts)
    then Some (owes ts x y - owes ts y x)
    else None.
Proof.
  intros Hts Hg.
  destruct (transaction_adjacency_graph_spec order ts Hts)
    as (g' & Hg' & _ & _ & Hedge & _).
  assert (g' = g) as -> by congruence.
  rewrite Hedge, foldl_edge_step_closed by done.
  case_decide; [|done]. simpl. f_equal. ring.
Qed.

Lemma transaction_adjacency_graph_edge_witness :
  ∃ g,
    transaction_adjacency_graph
      (first_seen_order (all_people dup_pair_transactions))
      dup_pair_transactions = Ok g
    ∧ edge g "Kevin" "Xander"
      = Some (owes dup_pair_transactions "Kevin" "Xander"
              - owes dup_pair_transactions "Xander" "Kevin")
    ∧ edge g "Xander" "John" = None.
Proof.
  assert (distinct_endpoints dup_pair_transactions) as Hd
    by (repeat constructor; discriminate).
  destruct (transaction_adjacency_graph_spec
              (first_seen_order (all_people dup_pair_transactions))
              dup_pair_transactions Hd) as (g & Hg & _).
  exists g. split; [done|].
  rewrite !(transaction_adjacency_graph_edge _ _ g _ _ Hd Hg). split.
  - rewrite decide_True; [done|]. repeat constructor.
  - apply decide_False. apply (bool_decide_unpack _). by vm_compute.
Defined.

(** ** Net totals of the graph of transactions *)

Lemma initial_flow (order : list person) (x : person) :
  flow (initial_graph order) x = 0.
Proof.
  unfold flow, row.
  destruct (dict_get x (initial_graph order)) as [r|] eqn:Hx; [|done].
  apply dict_get_elem_of in Hx.
  pose proof (initial_rows_empty order) as Hall.
  rewrite Forall_forall in Hall. apply Hall in Hx. simpl in Hx. by subst.
Qed.

Lemma debts_of_cons (t : transaction) (ts : list transaction) (x : person) :
  debts_of (t :: ts) x
  = (if decide (x = debtor t) then amount t else 0) + debts_of ts x.
Proof.
  unfold debts_of. rewrite filter_cons.
  destruct (decide (debtor t = x)) as [<-|Hne].
  - by rewrite decide_True, fmap_cons, sum_cons.
  - rewrite decide_False by done. ring.
Qed.

Lemma credits_of_cons (t : transaction) (ts : list transaction) (x : person) :
  credits_of (t :: ts) x
  = (if decide (x = pay_to t) then amount t else 0) + credits_of ts x.
Proof.
  unfold credits_of. rewrite filter_cons.
  destruct (decide (pay_to t = x)) as [<-|Hne].
  - by rewrite decide_True, fmap_cons, sum_cons.
  - rewrite decide_False by done. ring.
Qed.

Lemma fill_graph_flow (ts : list transaction) (g g' : graph) (x : person) :
  mutually_present g → distinct_endpoints ts →
  fill_graph g ts = Ok g' →
  flow g' x = flow g x + debts_of ts x - credits_of ts x.
Proof.
  intros Hm Hts. revert g Hm.
  induction Hts as [|t ts Ht Hts IH]; intros g Hm; simpl.
  - intros [= <-]. unfold debts_of, credits_of. simpl. rewrite sum_nil. ring.
  - rewrite update_adjacency_graph_updated by done. simpl. intros Hfill.
    rewrite (IH _ (mutually_present_updated _ _ _ _ Hm Ht) Hfill).
    rewrite flow_updated, debts_of_cons, credits_of_cons by done. ring.
Qed.

(** X8: with exact arithmetic on the amounts, the net total of a person is
    what the person owes minus what the person is owed.  On the graph built
    from transactions between distinct persons, [people_and_total_debt]
    returns the keys of the graph and, for every key [P], the sum of the
    amounts of the transactions with debtor [P] minus the sum of the amounts
    of those with payee [P]. *)
Theorem people_and_total_debt_net (order : list person)
    (ts : list transaction) (g : graph) :
  distinct_endpoints ts →
  transaction_adjacency_graph order ts = Ok g →
  ∃ totals,
    people_and_total_debt g = Ok (dict_keys g, totals)
    ∧ dict_keys totals = dict_keys g
    ∧ ∀ P, P ∈ dict_keys g →
        dict_get P totals = Some (debts_of ts P - credits_of ts P).
Proof.
  intros Hts Hg.
  destruct (transaction_adjacency_graph_spec order ts Hts)
    as (g' & Hg' & _ & _ & _ & _ & Hnd & _).
  assert (g' = g) as -> by congruence.
  exists (totals_of g). split_and!.
  - by apply people_and_total_debt_eq.
  - apply totals_of_keys.
  - intros P HP. rewrite dict_get_totals_of_flow by done. f_equal.
    unfold transaction_adjacency_graph in Hg.
    rewrite (fill_graph_flow ts _ g P (initial_mutually_present order) Hts Hg).
    rewrite initial_flow. ring.
Qed.

Lemma people_and_total_debt_net_witness :
  ∃ g totals,
    transaction_adjacency_graph
      (first_seen_order (all_people standard_transactions))
      standard_transactions = Ok g
    ∧ people_and_total_debt g = Ok (dict_keys g, totals)
    ∧ dict_keys totals = dict_keys g
    ∧ ∀ P, P ∈ dict_keys g →
        dict_get P totals
        = Some (debts_of standard_transactions P
                - credits_of standard_transactions P).
Proof.
  assert (distinct_endpoints standard_transactions) as Hd
    by (repeat constructor; discriminate).
  destruct (transaction_adjacency_graph_spec
              (first_seen_order (all_people standard_transactions))
              standard_transactions Hd) as (g & Hg & _).
  destruct (people_and_total_debt_net _ _ g Hd Hg) as (totals & Ht).
  exists g, totals. exact (conj Hg Ht).
Defined.

(** ** Splitting a transaction *)

Lemma all_people_app (ts1 ts2 : list transaction) (x : person) :
  x ∈ all_people (ts1 ++ ts2) ↔ x ∈ all_people ts1 ∨ x ∈ all_people ts2.
Proof. unfold all_people. rewrite !fmap_app, !elem_of_app. tauto. Qed.

Lemma all_people_cons (t : transaction) (ts : list transaction) (x : person) :
  x ∈ all_people (t :: ts) ↔ x = debtor t ∨ x = pay_to t ∨ x ∈ all_people ts.
Proof.
  unfold all_people. rewrite !fmap_cons, !elem_of_app, !elem_of_cons. tauto.
Qed.

(** X9: with exact arithmetic on the amounts, one transaction of amount
    [a + b] and two transactions of amounts [a] and [b] between the same two
    distinct persons, at the same place of a list of transactions between
    distinct persons, give graphs that are equal as mappings. *)
Theorem split_transaction (order order' : list person)
    (ts1 ts2 : list transaction) (d p : person) (a b : number) :
  d ≠ p → distinct_endpoints (ts1 ++ ts2) →
  set_iteration_order
    (all_people (ts1 ++ Transaction d p (a + b) :: ts2)) order →
  set_iteration_order
    (all_people (ts1 ++ Transaction d p a :: Transaction d p b :: ts2))
    order' →
  ∃ g g',
    transaction_adjacency_graph order
      (ts1 ++ Transaction d p (a + b) :: ts2) = Ok g
    ∧ transaction_adjacency_graph order'
        (ts1 ++ Transaction d p a :: Transaction d p b :: ts2) = Ok g'
    ∧ graph_equiv g g'.
Proof.
  intros Hne [Hts1 Hts2]%Forall_app [_ Ho] [_ Ho'].
  destruct (transaction_adjacency_graph_spec order
              (ts1 ++ Transaction d p (a + b) :: ts2))
    as (g & Hg & _ & _ & Hedge & Hkeys & _).
  { apply Forall_app. split; [done|]. by constructor. }
  destruct (transaction_adjacency_graph_spec order'
              (ts1 ++ Transaction d p a :: Transaction d p b :: ts2))
    as (g' & Hg' & _ & _ & Hedge' & Hkeys' & _).
  { apply Forall_app. split; [done|]. by repeat constructor. }
  exists g, g'. split_and!; [done..|]. apply graph_equiv_intro.
  - intros x. rewrite Hkeys, Hkeys', Ho, Ho'.
    rewrite !all_people_app, !all_people_cons. simpl. tauto.
  - intros x y. rewrite Hedge, Hedge', !foldl_app. simpl. f_equal.
    unfold edge_step. simpl.
    repeat case_decide; simpl; try done; f_equal; ring.
Qed.

Lemma split_transaction_witness :
  ∃ g g',
    transaction_adjacency_graph ["A"; "B"; "C"]
      ([Transaction "A" "B" (num 1)]
       ++ Transaction "B" "C" (num 4 + num 6) :: []) = Ok g
    ∧ transaction_adjacency_graph ["C"; "B"; "A"]
        ([Transaction "A" "B" (num 1)]
         ++ Transaction "B" "C" (num 4) :: Transaction "B" "C" (num 6) :: [])
      = Ok g'
    ∧ graph_equiv g g'.
Proof.
  apply split_transaction.
  - discriminate.
  - repeat constructor; discriminate.
  - split; [apply (bool_decide_unpack _); by vm_compute|].
    intros x. unfold all_people. simpl.
    rewrite !elem_of_cons, !elem_of_nil. tauto.
  - split; [apply (bool_decide_unpack _); by vm_compute|].
    intros x. unfold all_people. simpl.
    rewrite !elem_of_cons, !elem_of_nil. tauto.
Defined.

(** ** The simplifier on an arbitrary graph *)

Lemma filter_nil_Forall {A} (P : A → Prop) `{!∀ x, Decision (P x)}
    (l : list A) :
  (∀ x, x ∈ l → ¬ P x) → filter P l = [].
Proof.
  induction l as [|x l IH]; intros Hl; [done|].
  rewrite filter_cons, decide_False by (apply Hl; left).
  apply IH. intros y Hy. apply Hl. by right.
Qed.

Lemma totals_of_flow_inv (g : graph) (P : person) (t : number) :
  dict_get P (totals_of g) = Some t → P ∈ dict_keys g ∧ t = flow g P.
Proof.
  intros Ht.
  assert (P ∈ dict_keys g) as HP.
  { rewrite <-totals_of_keys. apply dict_get_keys. by eauto. }
  split; [done|]. rewrite dict_get_totals_of_flow in Ht by done. congruence.
Qed.

Lemma while_loop_done (fuel : nat) (s : loop_state) :
  ¬ (current_receiver s < length (receivers s))%nat →
  while_loop fuel s = Some (Ok s).
Proof. intros Hr. destruct fuel; simpl; by rewrite decide_False. Qed.

(** X10: without a net creditor there is nothing to do.  On a graph (a
    dictionary, its keys distinct) none of whose net totals is negative the
    loop is not entered and the plan is the empty dictionary, whether or not
    some totals are positive; this is the case of the empty graph and of a
    graph where everybody is settled. *)
Theorem simplify_transactions_no_receiver (g : graph) (people : list person)
    (totals : dict number) :
  NoDup (dict_keys g) →
  people_and_total_debt g = Ok (people, totals) →
  (∀ P t, dict_get P totals = Some t → 0 ≤ t) →
  simplify_transactions g = Some (Ok []).
Proof.
  intros Hnd Hpt Hpos.
  rewrite people_and_total_debt_eq in Hpt by done. injection Hpt as <- <-.
  unfold simplify_transactions. rewrite initial_state_eq by done.
  assert (receivers_of g = []) as ->.
  2:{ rewrite while_loop_done; [done|simpl; lia]. }
  unfold receivers_of. rewrite filter_nil_Forall; [done|].
  intros P HP. apply Qcle_not_lt, (Hpos P).
  by apply dict_get_totals_of_flow.
Qed.

Lemma simplify_transactions_no_receiver_witness :
  simplify_transactions
    [("A", [("B", num 10); ("C", num (-10))]);
     ("B", [("A", num (-10)); ("C", num 10)]);
     ("C", [("A", num 10); ("B", num (-10))])]
  = Some (Ok []).
Proof.
  eapply simplify_transactions_no_receiver.
  - apply (bool_decide_unpack _). by vm_compute.
  - vm_compute. reflexivity.
  - intros P t Ht. simpl in Ht.
    repeat (case_decide; [injection Ht as <-; by vm_compute|]). done.
Defined.

(** X11: a net creditor without a net debtor makes the simplifier raise
    [IndexError].  On a graph none of whose net totals is positive and one
    of whose net totals is negative, the first iteration reads [givers[0]]
    in the empty list [givers]. *)
Theorem simplify_transactions_no_giver (g : graph) (people : list person)
    (totals : dict number) (P : person) (t : number) :
  NoDup (dict_keys g) →
  people_and_total_debt g = Ok (people, totals) →
  (∀ Q u, dict_get Q totals = Some u → u ≤ 0) →
  dict_get P totals = Some t → t < 0 →
  simplify_transactions g = Some (Raise IndexError).
Proof.
  intros Hnd Hpt Hneg HP Ht.
  rewrite people_and_total_debt_eq in Hpt by done. injection Hpt as <- <-.
  unfold simplify_transactions. rewrite initial_state_eq by done.
  assert (givers_of g = []) as ->.
  { unfold givers_of. rewrite filter_nil_Forall; [done|].
    intros Q HQ. apply Qcle_not_lt, (Hneg Q).
    by apply dict_get_totals_of_flow. }
  apply totals_of_flow_inv in HP as [HP ->].
  assert (P ∈ (receivers_of g).*1) as Hin.
  { rewrite receivers_of_names. by apply list_elem_of_filter. }
  destruct (receivers_of g) as [|r rs]; [by apply elem_of_nil in Hin|].
  unfold loop_fuel. cbn [givers receivers length Nat.add while_loop].
  rewrite decide_True by (simpl; lia). done.
Qed.

Lemma simplify_transactions_no_giver_witness :
  simplify_transactions [("d", [("d", num (-1))])] = Some (Raise IndexError).
Proof.
  eapply (simplify_transactions_no_giver _ _ _ "d").
  - apply (bool_decide_unpack _). by vm_compute.
  - vm_compute. reflexivity.
  - intros Q u Hu. simpl in Hu.
    repeat (case_decide; [injection Hu as <-; by vm_compute|]). done.
  - vm_compute. reflexivity.
  - by vm_compute.
Defined.

(** X12: with exact arithmetic on the amounts, the simplifier needs a
    balanced graph and nothing else.  On every graph (a dictionary, its keys
    distinct) whose net totals sum to zero, built by
    [transaction_adjacency_graph] or not, [simplify_transactions] returns a
    plan without raising; a person with a net total other than zero is a key
    of the plan and the values of the person's row sum to that net total; a
    person with net total zero is not a key of the plan. *)
Theorem simplify_transactions_balanced (g : graph) (people : list person)
    (totals : dict number) :
  NoDup (dict_keys g) →
  people_and_total_debt g = Ok (people, totals) →
  sum (dict_values totals) = 0 →
  ∃ h, simplify_transactions g = Some (Ok h)
    ∧ ∀ P t, dict_get P totals = Some t →
        (t ≠ 0 → ∃ r, dict_get P h = Some r ∧ sum (dict_values r) = t)
        ∧ (t = 0 → dict_get P h = None).
Proof.
  intros Hnd Hpt Hsum.
  rewrite people_and_total_debt_eq in Hpt by done. injection Hpt as <- <-.
  rewrite sum_totals_of in Hsum.
  destruct (simplify_transactions_run g Hnd Hsum)
    as (_ & s & _ & Hsimp & Hinv & _ & Hend).
  destruct (loop_inv_final _ _ s Hinv Hend) as [Hgivers Hreceivers].
  exists (simplified_debt_hash s). split; [done|].
  intros P t [HP ->]%totals_of_flow_inv. split.
  - intros Hne.
    assert (flow (simplified_debt_hash s) P = flow g P) as Hflow.
    { destruct (Qclt_le_dec 0 (flow g P)) as [Hpos|Hle].
      - apply (Hgivers (P, flow g P)). unfold givers_of.
        apply list_elem_of_fmap. exists P. split; [done|].
        by apply list_elem_of_filter.
      - assert (flow g P < 0) as Hneg.
        { apply Qcle_lt_or_eq in Hle as [?|?]; [done|by destruct Hne]. }
        assert ((P, - flow g P) ∈ receivers_of g) as Hin.
        { unfold receivers_of. apply list_elem_of_fmap. exists P.
          split; [done|]. by apply list_elem_of_filter. }
        apply Hreceivers in Hin. simpl in Hin. rewrite Hin. ring. }
    rewrite <-Hflow. apply flow_nonzero_key. by rewrite Hflow.
  - intros Hz. apply dict_get_None. intros Hin.
    apply (inv_keys _ _ _ Hinv) in Hin.
    rewrite givers_of_names, receivers_of_names in Hin.
    destruct Hin as [[Hs _]%list_elem_of_filter|[Hs _]%list_elem_of_filter];
      rewrite Hz in Hs; by apply (irreflexivity Qclt) in Hs.
Qed.

Lemma simplify_transactions_balanced_witness :
  ∃ h,
    simplify_transactions
      [("A", [("B", num 7)]); ("B", [("C", num (-3))]); ("C", [("D", num (-4))]);
       ("D", [])]
    = Some (Ok h)
    ∧ (∃ r, dict_get "A" h = Some r ∧ sum (dict_values r) = num 7)
    ∧ dict_get "D" h = None.
Proof.
  edestruct (simplify_transactions_balanced
               [("A", [("B", num 7)]); ("B", [("C", num (-3))]);
                ("C", [("D", num (-4))]); ("D", [])])
    as (h & Hh & Hcons).
  - apply (bool_decide_unpack _). by vm_compute.
  - vm_compute. reflexivity.
  - by apply Qc_is_canon.
  - exists h. split; [done|]. split.
    + destruct (Hcons "A" (num 7)) as [HA _]; [reflexivity|]. apply HA.
      intros H. apply (f_equal this) in H. vm_compute in H. discriminate.
    + destruct (Hcons "D" 0) as [_ HD]; [reflexivity|]. by apply HD.
Defined.

(** ** The direction of the payments *)

Section payment_direction.
Variables G R : list (person * number).
Hypothesis names_distinct : NoDup (G.*1 ++ R.*1).

(** An iteration calls [update_adjacency_graph] once, from a giver to a
    receiver, with an amount that is not negative. *)
Lemma loop_body_transfer s :
  loop_inv G R s →
  (current_receiver s < length (receivers s))%nat →
  ∃ gn rn amt,
    gn ∈ G.*1 ∧ rn ∈ R.*1 ∧ gn ≠ rn ∧ 0 ≤ amt
    ∧ ∀ s', loop_body s = Ok s' →
        simplified_debt_hash s' = updated (simplified_debt_hash s) gn rn amt.
Proof.
  intros Hinv Hr.
  pose proof (giver_in_bounds G R s Hinv Hr) as Hg.
  destruct (lookup_lt_is_Some_2 _ _ Hg) as [[gn ga] Hgl].
  destruct (lookup_lt_is_Some_2 _ _ Hr) as [[rn ra] Hrl].
  destruct (inv_giver_entry G R s _ _ Hinv Hgl)
    as (g0 & Hg0 & Hgn & _ & Hga & _).
  destruct (inv_receiver_entry G R s _ _ Hinv Hrl)
    as (r0 & Hr0 & Hrn & _ & _ & Hra).
  simpl in *. specialize (Hra (reflexivity _)).
  assert (gn ≠ rn) as Hne.
  { rewrite Hgn, Hrn. by eapply giver_receiver_names. }
  exists gn, rn, (if bool_decide (ga < ra) then ga else ra).
  split_and!; [| |done| |].
  - rewrite Hgn. apply list_elem_of_fmap. exists g0. split; [done|].
    by eapply list_elem_of_lookup_2.
  - rewrite Hrn. apply list_elem_of_fmap. exists r0. split; [done|].
    by eapply list_elem_of_lookup_2.
  - destruct (bool_decide (ga < ra)); [done|by apply Qclt_le_weak].
  - intros s'. rewrite (loop_body_eq s gn rn ga ra Hgl Hrl). cbv zeta.
    rewrite update_adjacency_graph_updated
      by (done || apply (inv_mutual _ _ _ Hinv)).
    simpl. by intros [= <-].
Qed.

Lemma payments_directed_updated h gn rn amt :
  payments_directed G R h →
  gn ∈ G.*1 → rn ∈ R.*1 → 0 ≤ amt →
  payments_directed G R (updated h gn rn amt).
Proof.
  intros [Hanti Hdir] Hgn Hrn Hamt.
  apply NoDup_app in names_distinct as (_ & Hdisj & _).
  assert (gn ≠ rn) as Hne by (intros ->; by eapply Hdisj).
  split; [by apply antisymmetric_updated|].
  intros x y v. rewrite edge_updated by done.
  repeat case_decide; destruct_and?; simplify_eq.
  - intros [= <-]. left. split_and!; [done..|].
    destruct (edge h gn rn) as [w|] eqn:Hw; simpl.
    + apply Qcplus_nonneg_nonneg; [|done].
      destruct (Hdir _ _ _ Hw) as [(_ & _ & ?)|(HgR & _ & _)]; [done|].
      by destruct (Hdisj gn Hgn).
    + by rewrite Qcplus_0_l.
  - intros [= <-]. right. split_and!; [done..|].
    assert (- amt ≤ 0) as Hamt'.
    { apply Qcle_minus_iff. by rewrite Qcopp_involutive, Qcplus_0_l. }
    destruct (edge h rn gn) as [w|] eqn:Hw; simpl.
    + apply Qcplus_nonpos_nonpos; [|done].
      destruct (Hdir _ _ _ Hw) as [(HrG & _ & _)|(_ & _ & ?)]; [|done].
      by destruct (Hdisj rn HrG).
    + unfold Qcminus. by rewrite Qcplus_0_l.
  - apply Hdir.
Qed.

Lemma loop_reaches_directed s0 s :
  loop_inv G R s0 →
  payments_directed G R (simplified_debt_hash s0) →
  loop_reaches s0 s →
  payments_directed G R (simplified_debt_hash s).
Proof.
  intros Hinv Hdir. induction 1 as [|s s' Hreach IH Hr Hbody]; [done|].
  pose proof (loop_reaches_inv G R names_distinct _ _ Hinv Hreach) as Hinv'.
  destruct (loop_body_transfer s Hinv' Hr)
    as (gn & rn & amt & Hgn & Hrn & _ & Hamt & Hh).
  rewrite (Hh _ Hbody). by apply payments_directed_updated.
Qed.
End payment_direction.

(** X13: money flows from net debtors to net creditors only.  In the plan
    returned for a graph (its keys distinct) whose net totals sum to zero,
    the two entries of a pair are opposite, and every entry [plan[x][y]] is
    either a payment of a non-negative amount from a person with a positive
    net total to a person with a negative one, or the opposite of such a
    payment; no entry joins two net debtors, two net creditors or a settled
    person. *)
Theorem simplify_transactions_directed (g : graph) (people : list person)
    (totals : dict number) :
  NoDup (dict_keys g) →
  people_and_total_debt g = Ok (people, totals) →
  sum (dict_values totals) = 0 →
  ∃ h, simplify_transactions g = Some (Ok h)
    ∧ antisymmetric h
    ∧ ∀ x y v, edge h x y = Some v →
        ∃ tx ty, dict_get x totals = Some tx ∧ dict_get y totals = Some ty
          ∧ ((0 < tx ∧ ty < 0 ∧ 0 ≤ v) ∨ (tx < 0 ∧ 0 < ty ∧ v ≤ 0)).
Proof.
  intros Hnd Hpt Hsum.
  rewrite people_and_total_debt_eq in Hpt by done. injection Hpt as <- <-.
  rewrite sum_totals_of in Hsum.
  destruct (simplify_transactions_run g Hnd Hsum)
    as (_ & s & _ & Hsimp & _ & Hreach & _).
  destruct (loop_reaches_directed _ _ (names_NoDup g Hnd) _ s
              (loop_inv_initial g Hnd Hsum)) as [Hanti Hdir]; [|done|].
  { split; [by intros ? ? ?|]. by intros ? ? ?. }
  exists (simplified_debt_hash s). split_and!; [done..|].
  intros x y v Hv.
  assert (∀ k, k ∈ (givers_of g).*1 →
            dict_get k (totals_of g) = Some (flow g k) ∧ 0 < flow g k) as HG.
  { intros k. rewrite givers_of_names.
    intros [? ?]%list_elem_of_filter. split; [|done].
    by apply dict_get_totals_of_flow. }
  assert (∀ k, k ∈ (receivers_of g).*1 →
            dict_get k (totals_of g) = Some (flow g k) ∧ flow g k < 0) as HR.
  { intros k. rewrite receivers_of_names.
    intros [? ?]%list_elem_of_filter. split; [|done].
    by apply dict_get_totals_of_flow. }
  exists (flow g x), (flow g y).
  destruct (Hdir _ _ _ Hv) as [(Hx & Hy & ?)|(Hx & Hy & ?)].
  - destruct (HG _ Hx), (HR _ Hy). split_and!; [done..|]. by left.
  - destruct (HR _ Hx), (HG _ Hy). split_and!; [done..|]. by right.
Qed.

Lemma simplify_transactions_directed_witness :
  ∃ h,
    simplify_transactions
      [("A", [("B", num 7)]); ("B", [("C", num (-3))]); ("C", [("D", num (-4))]);
       ("D", [])]
    = Some (Ok h)
    ∧ antisymmetric h.
Proof.
  edestruct (simplify_transactions_directed
               [("A", [("B", num 7)]); ("B", [("C", num (-3))]);
                ("C", [("D", num (-4))]); ("D", [])])
    as (h & Hh & Hanti & _).
  - apply (bool_decide_unpack _). by vm_compute.
  - vm_compute. reflexivity.
  - by apply Qc_is_canon.
  - by exists h.
Defined.

(** ** The comparison of the test suite *)

Lemma hash_nested_ind (P : hash → Prop) :
  (∀ x, P (Leaf x)) →
  (∀ items, Forall (λ kv, P kv.2) items → P (Node items)) →
  ∀ h, P h.
Proof.
  intros Hleaf Hnode. fix IH 1. intros [x|items].
  - apply Hleaf.
  - apply Hnode. induction items as [|[k v] items IHitems].
    + constructor.
    + constructor; [apply IH|apply IHitems].
Qed.

Lemma keys_equal_spec (ka kb : list person) :
  keys_equal ka kb = true ↔ ∀ k, k ∈ ka ↔ k ∈ kb.
Proof.
  unfold keys_equal. rewrite andb_true_iff, !forallb_forall.
  split.
  - intros [Hab Hba] k. split; intros Hk%list_elem_of_In.
    + apply Hab in Hk. by apply bool_decide_eq_true in Hk.
    + apply Hba in Hk. by apply bool_decide_eq_true in Hk.
  - intros Hk. split; intros k Hin%list_elem_of_In;
      apply bool_decide_eq_true; by apply Hk.
Qed.

Lemma assertHashesAlmostEqual_nodes
    (cmp : number → number → option Z → option number → verdict)
    (items_a items_b : list (person * hash)) (places : option Z)
    (delta : option number) :
  assertHashesAlmostEqual cmp (Node items_a) (Node items_b) places delta
  = if keys_equal (dict_keys items_a) (dict_keys items_b)
    then each_item (λ va vb, assertHashesAlmostEqual cmp va vb None None)
           items_b items_a
    else Raises TestAssertionError.
Proof.
  simpl. destruct (keys_equal _ _); [|done].
  induction items_a as [|[k va] items_a IH]; simpl; [done|].
  destruct (dict_get k items_b) as [vb|]; [|done].
  by destruct (assertHashesAlmostEqual cmp va vb None None).
Qed.

Lemma each_item_passes (cmp : hash → hash → verdict)
    (items_b items : list (person * hash)) :
  each_item cmp items_b items = Passes
  ↔ Forall (λ kv, ∃ vb, dict_get kv.1 items_b = Some vb
                        ∧ cmp kv.2 vb = Passes) items.
Proof.
  induction items as [|[k va] items IH]; simpl.
  - split; [constructor|done].
  - rewrite Forall_cons, <-IH. simpl.
    destruct (dict_get k items_b) as [vb|].
    + destruct (cmp va vb) eqn:Hc.
      * split; [by eauto|by intros [_ ?]].
      * split; [done|]. intros [(vb' & [= <-] & ?) _]. congruence.
    + split; [done|]. by intros [(? & ? & _) _].
Qed.

(** X14: a comparison that passes has compared two values of the same
    tree structure (numbers against numbers, dictionaries against
    dictionaries with the same keys, at every level), whatever
    [assertAlmostEqual] does on numbers; and on two dictionaries the
    verdict does not depend on [places] and [delta], which are not handed
    to the nested comparisons. *)
Theorem assertHashesAlmostEqual_same_shape
    (cmp : number → number → option Z → option number → verdict) :
  (∀ hash_a hash_b places delta,
      assertHashesAlmostEqual cmp hash_a hash_b places delta = Passes →
      same_shape hash_a hash_b)
  ∧ (∀ items_a items_b places delta,
      assertHashesAlmostEqual cmp (Node items_a) (Node items_b) places delta
      = assertHashesAlmostEqual cmp (Node items_a) (Node items_b) None None).
Proof.
  split; [|by intros; rewrite !assertHashesAlmostEqual_nodes].
  intros hash_a. induction hash_a as [x|items_a IH] using hash_nested_ind;
    intros [y|items_b] places delta Hpass; try done.
  - constructor.
  - rewrite assertHashesAlmostEqual_nodes in Hpass.
    destruct (keys_equal _ _) eqn:Hkeys; [|done].
    pose proof (proj1 (keys_equal_spec _ _) Hkeys) as Hk.
    apply each_item_passes in Hpass.
    constructor; [done|]. intros k va Hin.
    rewrite Forall_forall in IH, Hpass.
    destruct (Hpass _ Hin) as (vb & Hvb & Hcmp). exists vb. split; [done|].
    by apply (IH _ Hin vb None None).
Qed.

Lemma assertHashesAlmostEqual_same_shape_witness :
  same_shape
    (Node [("Kevin", Node [("Xander", Leaf (num 1))])])
    (Node [("Kevin", Node [("Xander", Leaf (num 2))])]).
Proof.
  apply (proj1 (assertHashesAlmostEqual_same_shape (λ _ _ _ _, Passes))
           _ _ None None).
  reflexivity.
Defined.

(** X15: a value passes the comparison with itself.  If
    [assertAlmostEqual] passes on two equal numbers (the first thing the
    library method tests), then [assertHashesAlmostEqual] passes on every
    value, whose dictionaries have distinct keys, compared with itself, for
    every [places] and [delta]. *)
Theorem assertHashesAlmostEqual_refl
    (cmp : number → number → option Z → option number → verdict)
    (h : hash) (places : option Z) (delta : option number) :
  (∀ x pl de, cmp x x pl de = Passes) →
  hash_wf h →
  assertHashesAlmostEqual cmp h h places delta = Passes.
Proof.
  intros Hcmp. revert places delta.
  induction h as [x|items IH] using hash_nested_ind; intros places delta Hwf.
  - apply Hcmp.
  - inversion Hwf as [|items' Hnd Hall]; subst.
    rewrite assertHashesAlmostEqual_nodes.
    rewrite (proj2 (keys_equal_spec _ _)) by done.
    apply each_item_passes. rewrite Forall_forall in IH, Hall |- *.
    intros [k v] Hin. exists v. split.
    + by apply dict_get_NoDup.
    + by apply (IH _ Hin), (Hall _ Hin).
Qed.

Lemma assertHashesAlmostEqual_refl_witness :
  assertHashesAlmostEqual (λ x y _ _, if decide (x = y) then Passes
                                      else Raises TestAssertionError)
    (Node [("Kevin", Node [("Xander", Leaf (frac 1525 2))]);
           ("John", Node [("Xander", Leaf (num 830))])])
    (Node [("Kevin", Node [("Xander", Leaf (frac 1525 2))]);
           ("John", Node [("Xander", Leaf (num 830))])])
    (Some 3%Z) None
  = Passes.
Proof.
  apply assertHashesAlmostEqual_refl.
  - intros x pl de. by rewrite decide_True.
  - repeat (constructor; simpl);
      try (apply (bool_decide_unpack _); by vm_compute);
      try (by intros ?%elem_of_nil).
Defined.
